(** * Procedural scatter of template instances over a terrain

    A shallow embedding of the two copies of the Blender add-on
    [scatter_trees.py]: the one in the project folder (with
    [copy_with_children] and the [use_vgroup] switch) and the one under
    [scripts/] (root-only duplication, module-level weight function).

    Python floats are modelled by exact rationals [Q]; Python ints by [Z].
    The Blender data base ([bpy.data.objects], [bpy.data.collections]) is a
    pair of finite maps keyed by the unique datablock name, and a Python
    reference to a datablock is the name it is stored under.  The host's
    ray caster, [math.radians], the stream behind [random.random()] and the
    depth of the Python call stack are parameters of the development. *)

From Stdlib Require Import QArith Qabs ZArith Lia Psatz List String Reals Qreals.
From stdpp Require Import base option list gmap strings stringmap pretty.

Local Open Scope string_scope.
Local Open Scope list_scope.
Local Open Scope Z_scope.

(** ** Numbers and vectors *)

Definition Vector : Type := (Q * Q * Q)%type.

Definition vec_sub (a b : Vector) : Vector :=
  let '(ax, ay, az) := a in
  let '(bx, by_, bz) := b in
  (ax - bx, ay - by_, az - bz)%Q.

(** The square of [v.length]. *)
Definition length_squared (v : Vector) : Q :=
  let '(x, y, z) := v in (x * x + y * y + z * z)%Q.

Definition Qltb (a b : Q) : bool := negb (Qle_bool b a).

(** The test [v.length < d], decided exactly: a length is never below a
    non-positive bound, and below a positive one iff the squares compare. *)
Definition length_ltb (v : Vector) (d : Q) : bool :=
  Qltb 0 d && Qltb (length_squared v) (d * d).

(** [any(... for p in placed_positions)] *)
Definition any {A} (f : A → bool) (l : list A) : bool := existsb f l.

(** 4x4 matrices are carried around, never computed with. *)
Definition Matrix : Type := list (list Q).

(** ** Blender datablocks *)

(** [mesh.vertices[i].co] and [mesh.polygons[i].vertices] *)
Record Mesh := mkMesh {
  vertices : list Vector;
  polygons : list (list nat)
}.

(** A vertex group: the weights of the vertices assigned to it. *)
Definition VertexGroup : Type := gmap nat Q.

Record Object := mkObject {
  type : string;
  parent : option string;
  location : Vector;
  rotation_euler : Vector;
  scale : Vector;
  matrix_parent_inverse : Matrix;
  data : option Mesh;
  vertex_groups : gmap string VertexGroup
}.

(** [matrix_basis] is the local transform that Blender composes from, and
    decomposes into, location, rotation and scale. *)
Record Basis := mkBasis {
  basis_location : Vector;
  basis_rotation : Vector;
  basis_scale : Vector
}.

Definition matrix_basis (o : Object) : Basis :=
  mkBasis (location o) (rotation_euler o) (scale o).

Definition with_parent (p : option string) (o : Object) : Object :=
  mkObject (type o) p (location o) (rotation_euler o) (scale o)
           (matrix_parent_inverse o) (data o) (vertex_groups o).

Definition with_location (l : Vector) (o : Object) : Object :=
  mkObject (type o) (parent o) l (rotation_euler o) (scale o)
           (matrix_parent_inverse o) (data o) (vertex_groups o).

Definition with_rotation_euler (r : Vector) (o : Object) : Object :=
  mkObject (type o) (parent o) (location o) r (scale o)
           (matrix_parent_inverse o) (data o) (vertex_groups o).

Definition with_scale (s : Vector) (o : Object) : Object :=
  mkObject (type o) (parent o) (location o) (rotation_euler o) s
           (matrix_parent_inverse o) (data o) (vertex_groups o).

Definition with_matrix_parent_inverse (m : Matrix) (o : Object) : Object :=
  mkObject (type o) (parent o) (location o) (rotation_euler o) (scale o)
           m (data o) (vertex_groups o).

Definition with_matrix_basis (b : Basis) (o : Object) : Object :=
  mkObject (type o) (parent o) (basis_location b) (basis_rotation b)
           (basis_scale b) (matrix_parent_inverse o) (data o)
           (vertex_groups o).

Definition with_data (d : option Mesh) (o : Object) : Object :=
  mkObject (type o) (parent o) (location o) (rotation_euler o) (scale o)
           (matrix_parent_inverse o) d (vertex_groups o).

(** [v[2] = a] *)
Definition set_z (a : Q) (v : Vector) : Vector :=
  let '(x, y, _) := v in (x, y, a).

(** ** The world: Blender's data base and the random generator *)

Record World := mkWorld {
  data_objects : gmap string Object;          (* bpy.data.objects *)
  data_collections : gmap string (list string); (* name -> col.objects *)
  scene_children : list string;   (* bpy.context.scene.collection.children *)
  random_pos : nat                (* how many random() values were drawn *)
}.

Definition set_objects (f : gmap string Object → gmap string Object)
    (w : World) : World :=
  mkWorld (f (data_objects w)) (data_collections w) (scene_children w)
          (random_pos w).

Definition set_collections
    (f : gmap string (list string) → gmap string (list string))
    (w : World) : World :=
  mkWorld (data_objects w) (f (data_collections w)) (scene_children w)
          (random_pos w).

(** Seeding the generator puts it back at the start of its stream. *)
Definition seed (w : World) : World :=
  mkWorld (data_objects w) (data_collections w) (scene_children w) 0.

(** ** Exceptions and the state monad *)

Inductive exn :=
  | RuntimeError (msg : string)
  | ReferenceError     (* access through a reference to a removed datablock *)
  | IndexError
  | AttributeError     (* attribute access on None *)
  | RecursionError.

Inductive outcome (A : Type) :=
  | Return (a : A) (w : World)
  | Raise (e : exn) (w : World)
  | Timeout.           (* the model's loop budget ran out *)
Arguments Return {A} a w.
Arguments Raise {A} e w.
Arguments Timeout {A}.

Definition M (A : Type) : Type := World → outcome A.

Definition ret {A} (a : A) : M A := fun w => Return a w.

Definition bind {A B} (m : M A) (k : A → M B) : M B :=
  fun w => match m w with
           | Return a w' => k a w'
           | Raise e w' => Raise e w'
           | Timeout => Timeout
           end.

Definition raise {A} (e : exn) : M A := fun w => Raise e w.
Definition get_world : M World := fun w => Return w w.
Definition modify (f : World → World) : M unit := fun w => Return tt (f w).

Declare Scope py_scope.
Delimit Scope py_scope with py.
Notation "x <- m ;; k" := (bind m (fun x => k))
  (at level 100, m at next level, right associativity) : py_scope.
Notation "m ;;; k" := (bind m (fun _ => k))
  (at level 100, right associativity) : py_scope.
Local Open Scope py_scope.

(** [for x in l: body x] *)
Fixpoint for_each {A} (l : list A) (body : A → M unit) : M unit :=
  match l with
  | [] => ret tt
  | x :: l' => body x ;;; for_each l' body
  end.

(** [while cond: body], on loop variables of type [S]. *)
Fixpoint while {S} (fuel : nat) (cond : S → bool) (body : S → M S) (s : S)
    : M S :=
  if cond s then
    match fuel with
    | O => fun _ => Timeout
    | Datatypes.S fuel' => s' <- body s ;; while fuel' cond body s'
    end
  else ret s.

(** [l[i]] with Python's negative indices. *)
Definition py_index {A} (l : list A) (i : Z) : option A :=
  let n := Z.of_nat (length l) in
  if ((0 <=? i) && (i <? n))%Z then l !! Z.to_nat i
  else if ((- n <=? i) && (i <? 0))%Z then l !! Z.to_nat (n + i)
  else None.

(** [sum(l)] *)
Definition sum (l : list Q) : Q := fold_left Qplus l 0%Q.

(** [max(l)]: the first of the greatest elements; [l] is not empty where
    the scripts call it. *)
Definition py_max (l : list Q) : Q :=
  match l with
  | [] => 0%Q
  | x :: l' => fold_left (fun m y => if Qltb m y then y else m) l' x
  end.

(** ** Module constants *)

Definition terrain_name := "Plane".
Definition no_trees_vgroup := "NoTrees".
Definition tree_name := "tree".
Definition bush_name := "Bush".
Definition tree_collection := "Generated_Trees".
Definition bush_collection := "Generated_Bushes".

(** ** Host primitives that do not depend on the parameters *)

(** [bpy.data.objects.get(name)] *)
Definition objects_get (name : string) : M (option string) :=
  fun w => Return (if data_objects w !! name is Some _ then Some name else None) w.

(** Reading an attribute of the object behind a reference. *)
Definition deref (ref : string) : M Object :=
  fun w => match data_objects w !! ref with
           | Some o => Return o w
           | None => Raise ReferenceError w
           end.

(** Assigning to attributes of the object behind a reference. *)
Definition update (ref : string) (f : Object → Object) : M unit :=
  o <- deref ref ;;
  modify (set_objects (insert ref (f o))).

(** [obj.children]: the objects whose parent is [obj]. *)
Definition children_of (objs : gmap string Object) (n : string)
    : list string :=
  (map_to_list (filter (λ kv : string * Object, parent kv.2 = Some n) objs)).*1.

Definition Object_children (ref : string) : M (list string) :=
  _ <- deref ref ;;
  w <- get_world ;;
  ret (children_of (data_objects w) ref).

(** [obj.copy()]: a new datablock with the same properties under a name
    that is not in use, linked to no collection. *)
Definition Object_copy (ref : string) : M string :=
  o <- deref ref ;;
  w <- get_world ;;
  let name := fresh_string ref (data_objects w) in
  modify (set_objects (insert name o)) ;;;
  ret name.

(** [bpy.data.collections.get(name)] *)
Definition collections_get (name : string) : M (option string) :=
  fun w => Return (if data_collections w !! name is Some _ then Some name else None) w.

(** [col.objects] *)
Definition collection_objects (col : string) : M (list string) :=
  fun w => match data_collections w !! col with
           | Some l => Return l w
           | None => Raise ReferenceError w
           end.

(** [col.objects.link(obj)] *)
Definition collection_link (col obj : string) : M unit :=
  l <- collection_objects col ;;
  _ <- deref obj ;;
  if bool_decide (obj ∈ l)
  then raise (RuntimeError "Object already in collection")
  else modify (set_collections (insert col (l ++ [obj]))).

Definition unparent (n : string) (o : Object) : Object :=
  if bool_decide (parent o = Some n) then with_parent None o else o.

(** The data base once the datablock [obj] is gone: every collection has
    dropped it and its children have lost their parent. *)
Definition without (obj : string) (w : World) : World :=
  mkWorld (unparent obj <$> delete obj (data_objects w))
          (filter (λ n, n ≠ obj) <$> data_collections w)
          (scene_children w) (random_pos w).

(** [bpy.data.objects.remove(obj, do_unlink=True)] *)
Definition objects_remove (obj : string) : M unit :=
  _ <- deref obj ;;
  modify (without obj).

(** ** Helpers shared by both copies of the script *)

Definition get_or_create_collection (name : string) : M string :=
  col <- collections_get name ;;
  match col with
  | Some col => ret col
  | None =>
      modify (set_collections (insert name [])) ;;;       (* collections.new *)
      modify (fun w => mkWorld (data_objects w) (data_collections w)
                               (scene_children w ++ [name]) (random_pos w)) ;;;
      ret name
  end.

Definition get_collection (name : string) : M (option string) :=
  collections_get name.

Definition clear_collection (col : option string) : M unit :=
  match col with
  | None => ret tt
  | Some col =>
      objs <- collection_objects col ;;
      for_each objs (fun obj => objects_remove obj)
  end.

(** The per-vertex lookup with its [try]/[except RuntimeError]. *)
Definition vertex_weight (vg : VertexGroup) (vid : nat) : Q :=
  match vg !! vid with
  | Some w => w
  | None => 0%Q
  end.

Definition face_weights (vg : VertexGroup) (poly : list nat) : list Q :=
  map (vertex_weight vg) poly.

Definition vgroup_weight_at_face_avg (terrain : string) (vgroup_name : string)
    (face_index : Z) : M Q :=
  t <- deref terrain ;;
  match vertex_groups t !! vgroup_name with
  | None => ret 0%Q
  | Some vg =>
      match data t with
      | None => raise AttributeError
      | Some me =>
          match py_index (polygons me) face_index with
          | None => raise IndexError
          | Some poly =>
              let weights := face_weights vg poly in
              ret (match weights with
                   | [] => 0%Q
                   | _ => sum weights / inject_Z (Z.of_nat (length weights))
                   end)%Q
          end
      end
  end.

(** ** Operators

    An operator's [execute] returns a status; what it passes to
    [self.report] is returned with it, in the order of the calls. *)

Inductive status := FINISHED | CANCELLED.

Record Report := mkReport {
  report_type : string;        (* "INFO", "ERROR" *)
  report_message : string
}.

(** [try: x = m] / [except Exception as e]: the exception, if one was
    raised, in the world it was raised in. *)
Definition try {A} (m : M A) : M (exn + A) :=
  fun w => match m w with
           | Return a w' => Return (inr a) w'
           | Raise e w' => Return (inl e) w'
           | Timeout => Timeout
           end.

(** [str(e)]: the message of a [RuntimeError] that a script raised; the
    text of the other exceptions is the interpreter's, [describe]. *)
Definition str (describe : exn → string) (e : exn) : string :=
  match e with
  | RuntimeError msg => msg
  | _ => describe e
  end.

(** ** The scripts, over the host's services *)

(** What [scene.ray_cast] reports (the normal and the matrix, which the
    scripts never read, are left out). *)
Record RayResult := mkRayResult {
  hit : bool;
  hit_location : Vector;
  hit_face_index : Z;
  hit_obj : option string
}.

Record Locals := mkLocals {
  placed_positions : list Vector;
  placed : Z;
  tries : Z
}.

(** The services of the host the scripts run in. *)
Class Host := mkHost {
  (** [bpy.context.scene.ray_cast(depsgraph, origin, direction)] on the
      dependency graph evaluated from the current data base *)
  ray_cast : World → Vector → Vector → RayResult;
  (** [math.radians] *)
  radians : Q → Q;
  (** the values [random.random()] yields after seeding *)
  random_stream : nat → Q;
  (** how many nested calls of [copy_with_children] the interpreter allows *)
  recursion_limit : nat
}.

Section Shared.
Context {host : Host}.

Definition random_random : M Q :=
  fun w => Return (random_stream (random_pos w))
                  (mkWorld (data_objects w) (data_collections w)
                           (scene_children w) (S (random_pos w))).

(** [random.uniform(a, b)] is [a + (b - a) * random()]. *)
Definition random_uniform (a b : Q) : M Q :=
  u <- random_random ;;
  ret (a + (b - a) * u)%Q.

(** [(None, None)] is [None] here. *)
Definition raycast_to_terrain (terrain : string) (x y z_start : Q)
    : M (option (Vector * Z)) :=
  depsgraph <- get_world ;;
  let origin := (x, y, z_start) in
  let direction := (0, 0, - (1))%Q in
  let r := ray_cast depsgraph origin direction in
  if hit r then
    match hit_obj r with
    | Some h =>
        _ <- deref terrain ;;
        if String.eqb h terrain
        then ret (Some (hit_location r, hit_face_index r))
        else ret None
    | None => ret None
    end
  else ret None.

Fixpoint copy_with_children (depth : nat) (src_obj target_collection : string)
    : M string :=
  match depth with
  | O => raise RecursionError
  | S depth' =>
      new_obj <- Object_copy src_obj ;;
      collection_link target_collection new_obj ;;;
      children <- Object_children src_obj ;;
      for_each children (fun child =>
        new_child <- copy_with_children depth' child target_collection ;;
        update new_child (with_parent (Some new_obj)) ;;;
        c <- deref child ;;
        update new_child
               (with_matrix_parent_inverse (matrix_parent_inverse c)) ;;;
        c <- deref child ;;
        update new_child (with_matrix_basis (matrix_basis c))) ;;;
      ret new_obj
  end.

End Shared.

(** The project folder's script. *)
Module Projekt.
Section Script.
Context {host : Host}.

(** The statements of the loop body that replicate the template for an
    accepted candidate and count it (from [copy_with_children] to
    [placed += 1]), as a function of the variables they read. *)
Definition place (src col : string) (min_scale max_scale : Q) (loc : Vector)
    (placed_positions : list Vector) (placed tries : Z) : M Locals :=
  new_obj <- copy_with_children recursion_limit src col ;;
  update new_obj (with_location loc) ;;;
  yaw <- random_uniform 0 360 ;;
  o <- deref new_obj ;;
  update new_obj
    (with_rotation_euler (set_z (radians yaw) (rotation_euler o))) ;;;
  s' <- random_uniform min_scale max_scale ;;
  update new_obj (with_scale (s', s', s')) ;;;
  ret (mkLocals placed_positions (placed + 1) tries).

Definition loop_body (terrain src col : string) (area z_start min_scale
    max_scale : Q) (use_vgroup : bool) (path_threshold min_distance : Q)
    (s : Locals) : M Locals :=
  let tries := tries s + 1 in
  let continue := ret (mkLocals (placed_positions s) (placed s) tries) in
  x <- random_uniform (- area) area ;;
  y <- random_uniform (- area) area ;;
  r <- raycast_to_terrain terrain x y z_start ;;
  match r with
  | None => continue
  | Some (loc, face_index) =>
      reject <- (if use_vgroup then
                   w <- vgroup_weight_at_face_avg terrain no_trees_vgroup
                                                  face_index ;;
                   ret (Qltb path_threshold w)
                 else ret false) ;;
      if reject : bool then continue else
      let place placed_positions :=
        place src col min_scale max_scale loc placed_positions (placed s)
              tries in
      if Qltb 0 min_distance then
        let loc_vec := loc in
        if any (fun p => length_ltb (vec_sub loc_vec p) min_distance)
               (placed_positions s)
        then continue
        else place (placed_positions s ++ [loc_vec])
      else place (placed_positions s)
  end.

Definition loop_cond (count max_tries : Z) (s : Locals) : bool :=
  (placed s <? count) && (tries s <? max_tries).

Definition scatter_on_terrain (source_obj_name target_collection_name : string)
    (count : Z) (area z_start min_scale max_scale : Q) (use_vgroup : bool)
    (path_threshold min_distance : Q) : M (Z * Z) :=
  terrain <- objects_get terrain_name ;;
  src <- objects_get source_obj_name ;;
  match terrain with
  | None => raise (RuntimeError "Terrain not found")
  | Some terrain =>
      t <- deref terrain ;;
      if negb (String.eqb (type t) "MESH")
      then raise (RuntimeError "Terrain must be mesh")
      else
        match src with
        | None => raise (RuntimeError "Source object not found")
        | Some src =>
            if Qltb max_scale min_scale
            then raise (RuntimeError "Invalid scale range")
            else
              col <- get_or_create_collection target_collection_name ;;
              clear_collection (Some col) ;;;
              let max_tries := count * 40 in
              s <- while (Z.to_nat max_tries) (loop_cond count max_tries)
                     (loop_body terrain src col area z_start min_scale
                        max_scale use_vgroup path_threshold min_distance)
                     (mkLocals [] 0 0) ;;
              ret (placed s, tries s)
        end
  end.

End Script.

(** The properties of [OBJECT_OT_scatter_trees] and of
    [OBJECT_OT_scatter_bushes]. *)
Record Properties := mkProperties {
  count : Z;
  area : Q;
  z_start : Q;
  min_scale : Q;
  max_scale : Q;
  use_vgroup : bool;
  path_threshold : Q;
  min_distance : Q
}.

(** The limits that the property declarations set ([min=], [max=]). *)
Definition within_limits (self : Properties) : bool :=
  (1 <=? count self) && (count self <=? 5000)
  && Qle_bool (1 # 10) (area self)
  && Qle_bool (1 # 100) (min_scale self)
  && Qle_bool (1 # 100) (max_scale self)
  && Qle_bool 0 (path_threshold self) && Qle_bool (path_threshold self) 1
  && Qle_bool 0 (min_distance self).

(** The declared defaults. *)
Definition OBJECT_OT_scatter_trees_defaults : Properties :=
  mkProperties 40 6 1000 (7 # 10) (12 # 10) true (1 # 2) (3 # 2).

Definition OBJECT_OT_scatter_bushes_defaults : Properties :=
  mkProperties 20 6 1000 (4 # 10) (8 # 10) true (1 # 2) 1.

Section Operators.
Context {host : Host}.
Variable describe : exn → string.

Definition OBJECT_OT_scatter_trees_execute (self : Properties)
    : M (list Report * status) :=
  r <- try (scatter_on_terrain tree_name tree_collection (count self)
              (area self) (z_start self) (min_scale self) (max_scale self)
              (use_vgroup self) (path_threshold self) (min_distance self)) ;;
  match r with
  | inl e => ret ([mkReport "ERROR" (str describe e)], CANCELLED)
  | inr (placed, tries) =>
      ret ([mkReport "INFO" ("Trees placed: " ++ pretty placed)], FINISHED)
  end.

Definition OBJECT_OT_clear_trees_execute : M (list Report * status) :=
  col <- get_collection tree_collection ;;
  clear_collection col ;;;
  ret ([], FINISHED).

Definition OBJECT_OT_scatter_bushes_execute (self : Properties)
    : M (list Report * status) :=
  r <- try (scatter_on_terrain bush_name bush_collection (count self)
              (area self) (z_start self) (min_scale self) (max_scale self)
              (use_vgroup self) (path_threshold self) (min_distance self)) ;;
  match r with
  | inl e => ret ([mkReport "ERROR" (str describe e)], CANCELLED)
  | inr (placed, tries) =>
      ret ([mkReport "INFO" ("Bushes placed: " ++ pretty placed)], FINISHED)
  end.

Definition OBJECT_OT_clear_bushes_execute : M (list Report * status) :=
  col <- get_collection bush_collection ;;
  clear_collection col ;;;
  ret ([], FINISHED).

End Operators.
End Projekt.

(** The script under [scripts/]. *)
Module Scripts.

(** The stricter variant, which the script defines and leaves unused. *)
Definition vgroup_weight_at_face_max (terrain : string) (vgroup_name : string)
    (face_index : Z) : M Q :=
  t <- deref terrain ;;
  match vertex_groups t !! vgroup_name with
  | None => ret 0%Q
  | Some vg =>
      match data t with
      | None => raise AttributeError
      | Some me =>
          match py_index (polygons me) face_index with
          | None => raise IndexError
          | Some poly =>
              let weights := face_weights vg poly in
              ret (match weights with
                   | [] => 0%Q
                   | _ => py_max weights
                   end)
          end
      end
  end.

Section Script.
Context {host : Host}.

Definition VGROUP_WEIGHT_FUNC := vgroup_weight_at_face_avg.

(** The statements of the loop body that duplicate the template for an
    accepted candidate and count it (from [src.copy()] to [placed += 1]). *)
Definition place (src col : string) (min_scale max_scale : Q) (loc : Vector)
    (placed_positions : list Vector) (placed tries : Z) : M Locals :=
  new_obj <- Object_copy src ;;
  o <- deref src ;;
  (match data o with
   | Some me => update new_obj (with_data (Some me))   (* data.copy() *)
   | None => ret tt
   end) ;;;
  update new_obj (with_location loc) ;;;
  yaw <- random_uniform 0 360 ;;
  o <- deref new_obj ;;
  update new_obj
    (with_rotation_euler (set_z (radians yaw) (rotation_euler o))) ;;;
  s' <- random_uniform min_scale max_scale ;;
  update new_obj (with_scale (s', s', s')) ;;;
  collection_link col new_obj ;;;
  ret (mkLocals placed_positions (placed + 1) tries).

Definition loop_body (terrain src col : string) (area z_start min_scale
    max_scale path_threshold min_distance : Q) (s : Locals) : M Locals :=
  let tries := tries s + 1 in
  let continue := ret (mkLocals (placed_positions s) (placed s) tries) in
  x <- random_uniform (- area) area ;;
  y <- random_uniform (- area) area ;;
  r <- raycast_to_terrain terrain x y z_start ;;
  match r with
  | None => continue
  | Some (loc, face_index) =>
      w <- VGROUP_WEIGHT_FUNC terrain no_trees_vgroup face_index ;;
      if Qltb path_threshold w then continue else
      let place placed_positions :=
        place src col min_scale max_scale loc placed_positions (placed s)
              tries in
      if Qltb 0 min_distance then
        let loc_vec := loc in
        let too_close :=
          any (fun p => length_ltb (vec_sub loc_vec p) min_distance)
              (placed_positions s) in
        if too_close
        then continue
        else place (placed_positions s ++ [loc_vec])
      else place (placed_positions s)
  end.

Definition loop_cond (count max_tries : Z) (s : Locals) : bool :=
  (placed s <? count) && (tries s <? max_tries).

Definition scatter_on_terrain (source_obj_name target_collection_name : string)
    (count : Z) (area z_start min_scale max_scale path_threshold
    min_distance : Q) : M (Z * Z) :=
  terrain <- objects_get terrain_name ;;
  src <- objects_get source_obj_name ;;
  match terrain with
  | None => raise (RuntimeError "Terrain 'Plane' not found.")
  | Some terrain =>
      match src with
      | None =>
          raise (RuntimeError
                   ("Source object '" ++ source_obj_name ++ "' not found."))
      | Some src =>
          if Qltb max_scale min_scale
          then raise (RuntimeError "Max scale must be >= Min scale.")
          else
            col <- get_or_create_collection target_collection_name ;;
            clear_collection (Some col) ;;;
            let max_tries := count * 40 in
            s <- while (Z.to_nat max_tries) (loop_cond count max_tries)
                   (loop_body terrain src col area z_start min_scale
                      max_scale path_threshold min_distance)
                   (mkLocals [] 0 0) ;;
            ret (placed s, tries s)
      end
  end.

End Script.

(** The properties of [OBJECT_OT_scatter_trees] and of
    [OBJECT_OT_scatter_bushes]. *)
Record Properties := mkProperties {
  count : Z;
  area : Q;
  z_start : Q;
  min_scale : Q;
  max_scale : Q;
  path_threshold : Q;
  min_distance : Q
}.

(** The limits that the property declarations set ([min=], [max=]). *)
Definition within_limits (self : Properties) : bool :=
  (1 <=? count self) && (count self <=? 5000)
  && Qle_bool (1 # 10) (area self) && Qle_bool (area self) 1000
  && Qle_bool 1 (z_start self) && Qle_bool (z_start self) 100000
  && Qle_bool (1 # 100) (min_scale self) && Qle_bool (min_scale self) 100
  && Qle_bool (1 # 100) (max_scale self) && Qle_bool (max_scale self) 100
  && Qle_bool 0 (path_threshold self) && Qle_bool (path_threshold self) 1
  && Qle_bool 0 (min_distance self) && Qle_bool (min_distance self) 1000.

(** The declared defaults. *)
Definition OBJECT_OT_scatter_trees_defaults : Properties :=
  mkProperties 40 6 1000 (7 # 10) (12 # 10) (1 # 2) (3 # 2).

Definition OBJECT_OT_scatter_bushes_defaults : Properties :=
  mkProperties 20 6 1000 (4 # 10) (8 # 10) (1 # 2) 1.

Section Operators.
Context {host : Host}.
Variable describe : exn → string.

Definition OBJECT_OT_scatter_trees_execute (self : Properties)
    : M (list Report * status) :=
  r <- try (scatter_on_terrain tree_name tree_collection (count self)
              (area self) (z_start self) (min_scale self) (max_scale self)
              (path_threshold self) (min_distance self)) ;;
  match r with
  | inl e => ret ([mkReport "ERROR" (str describe e)], CANCELLED)
  | inr (placed, tries) =>
      ret ([mkReport "INFO"
              ("Trees placed: " ++ pretty placed ++ "/" ++ pretty (count self)
               ++ " into '" ++ tree_collection ++ "' (tries="
               ++ pretty tries ++ ")")], FINISHED)
  end.

Definition OBJECT_OT_clear_trees_execute : M (list Report * status) :=
  col <- get_collection tree_collection ;;
  match col with
  | None =>
      ret ([mkReport "INFO"
              ("Collection '" ++ tree_collection ++ "' not found.")],
           FINISHED)
  | Some _ =>
      clear_collection col ;;;
      ret ([mkReport "INFO" ("Cleared '" ++ tree_collection ++ "'.")],
           FINISHED)
  end.

Definition OBJECT_OT_scatter_bushes_execute (self : Properties)
    : M (list Report * status) :=
  r <- try (scatter_on_terrain bush_name bush_collection (count self)
              (area self) (z_start self) (min_scale self) (max_scale self)
              (path_threshold self) (min_distance self)) ;;
  match r with
  | inl e => ret ([mkReport "ERROR" (str describe e)], CANCELLED)
  | inr (placed, tries) =>
      ret ([mkReport "INFO"
              ("Bushes placed: " ++ pretty placed ++ "/"
               ++ pretty (count self) ++ " into '" ++ bush_collection
               ++ "' (tries=" ++ pretty tries ++ ")")], FINISHED)
  end.

Definition OBJECT_OT_clear_bushes_execute : M (list Report * status) :=
  col <- get_collection bush_collection ;;
  match col with
  | None =>
      ret ([mkReport "INFO"
              ("Collection '" ++ bush_collection ++ "' not found.")],
           FINISHED)
  | Some _ =>
      clear_collection col ;;;
      ret ([mkReport "INFO" ("Cleared '" ++ bush_collection ++ "'.")],
           FINISHED)
  end.

End Operators.
End Scripts.

(** ** A concrete host: a scene of boxes

    Every object that has a mesh is visible and stands for the axis-aligned
    bounding box of its vertices, scaled and moved to the object's location
    (rotation and parenting do not move a box).  A ray cast straight down
    reports the box with the highest top face under the ray's origin. *)
Module Boxes.

Definition Qmin (a b : Q) : Q := if Qle_bool a b then a else b.
Definition Qmax (a b : Q) : Q := if Qle_bool a b then b else a.

(** [(xmin, xmax, ymin, ymax, zmax)] of the vertices, in object space. *)
Definition bounds (vs : list Vector) : option (Q * Q * Q * Q * Q) :=
  match vs with
  | [] => None
  | (x, y, z) :: vs' =>
      Some (fold_left
              (fun '(x0, x1, y0, y1, z1) '(x, y, z) =>
                 (Qmin x0 x, Qmax x1 x, Qmin y0 y, Qmax y1 y, Qmax z1 z))
              vs' (x, x, y, y, z))
  end.

(** The height at which the vertical line through [(x, y)] meets the top of
    the object's box, if it does so at or below [z_start]. *)
Definition box_top (o : Object) (x y z_start : Q) : option Q :=
  me ← data o;
  b ← bounds (vertices me);
  let '(x0, x1, y0, y1, z1) := b in
  let '(lx, ly, lz) := location o in
  let '(sx, sy, sz) := scale o in
  let top := (lz + sz * z1)%Q in
  if Qle_bool (lx + sx * x0) x && Qle_bool x (lx + sx * x1)
     && Qle_bool (ly + sy * y0) y && Qle_bool y (ly + sy * y1)
     && Qle_bool top z_start
  then Some top else None.

Definition nearest (x y z_start : Q) (best : option (string * Q))
    (kv : string * Object) : option (string * Q) :=
  match box_top kv.2 x y z_start, best with
  | Some top, Some (_, top') =>
      if Qltb top' top then Some (kv.1, top) else best
  | Some top, None => Some (kv.1, top)
  | None, _ => best
  end.

Definition box_ray_cast (w : World) (origin direction : Vector) : RayResult :=
  let '(x, y, z_start) := origin in
  match fold_left (nearest x y z_start) (map_to_list (data_objects w)) None with
  | Some (name, top) => mkRayResult true (x, y, top) 0 (Some name)
  | None => mkRayResult false (0, 0, 0)%Q (-1) None
  end.

(** Degrees to radians with 355/113 for pi. *)
Definition box_radians (d : Q) : Q := (d * (355 # 113) / 180)%Q.

(** A generator that cycles through the values of a list. *)
Definition cycle (l : list Q) (n : nat) : Q :=
  nth (n mod length l) l 0%Q.

Definition box_host (draws : list Q) : Host :=
  mkHost box_ray_cast box_radians (cycle draws) 1000.

Definition plane_mesh : Mesh :=
  mkMesh [(-(1), -(1), 0); (1, -(1), 0); (-(1), 1, 0); (1, 1, 0)]%Q
         [[0; 1; 3; 2]%nat].

Definition crown_mesh : Mesh :=
  mkMesh [(-(1), -(1), 0); (1, -(1), 0); (-(1), 1, 0); (1, 1, 0);
          (-(1), -(1), 2); (1, -(1), 2); (-(1), 1, 2); (1, 1, 2)]%Q
         [[0; 1; 3; 2]%nat; [4; 5; 7; 6]%nat].

Definition identity_matrix : Matrix :=
  [[1; 0; 0; 0]; [0; 1; 0; 0]; [0; 0; 1; 0]; [0; 0; 0; 1]]%Q.

(** A 20 x 20 ground plane. *)
Definition plane (groups : gmap string VertexGroup) : Object :=
  mkObject "MESH" None (0, 0, 0)%Q (0, 0, 0)%Q (10, 10, 1)%Q
           identity_matrix (Some plane_mesh) groups.

(** The template, parked outside the sampled area. *)
Definition tree : Object :=
  mkObject "MESH" None (50, 50, 0)%Q (0, 0, 0)%Q (1, 1, 1)%Q
           identity_matrix (Some crown_mesh) ∅.

(** A part of the template, offset from its parent. *)
Definition crown : Object :=
  mkObject "MESH" (Some "tree") (0, 0, 3)%Q (0, 0, 0)%Q (2, 2, 1)%Q
           identity_matrix (Some crown_mesh) ∅.

Definition world (objs : gmap string Object)
    (cols : gmap string (list string)) : World :=
  mkWorld objs cols (map fst (map_to_list cols)) 0.

Definition simple_scene : World :=
  world (<["Plane" := plane ∅]> (<["tree" := tree]> ∅)) ∅.

Definition scene_with_child : World :=
  world (<["Plane" := plane ∅]>
           (<["tree" := tree]> (<["crown" := crown]> ∅))) ∅.

(** A forbidden zone: vertices 0 and 1 of the plane carry weight, the
    other two are not in the group. *)
Definition path_groups : gmap string VertexGroup :=
  {[ "NoTrees" := {[ 0%nat := 1%Q; 1%nat := (1 # 2)%Q ]} ]}.

Definition scene_with_path : World :=
  world (<["Plane" := plane path_groups]> (<["tree" := tree]> ∅)) ∅.

(** An empty standing where the terrain should be, and a target that
    still holds an instance of an earlier run. *)
Definition empty_plane : Object :=
  mkObject "EMPTY" None (0, 0, 0)%Q (0, 0, 0)%Q (1, 1, 1)%Q
           identity_matrix None ∅.

Definition scene_without_mesh : World :=
  world (<["Plane" := empty_plane]>
           (<["tree" := tree]> (<["tree0" := tree]> ∅)))
        {[ "Generated_Trees" := ["tree0"] ]}.

Definition world_of {A} (o : outcome A) : World :=
  match o with
  | Return _ w => w
  | Raise _ w => w
  | Timeout => simple_scene
  end.

(** A run whose first two candidates are both the centre of the plane. *)
Definition centre_host : Host := box_host [1 # 2; 1 # 2; 0; 0]%Q.

(** The simple scene once the target exists and is empty ... *)
Definition centre_start : World :=
  Eval vm_compute in
    world_of ((col <- get_or_create_collection "Generated_Trees" ;;
               clear_collection (Some col)) simple_scene).

(** ... and after the first attempt of the project folder's loop. *)
Definition centre_after : World :=
  Eval vm_compute in
    world_of (Projekt.loop_body (host := centre_host) "Plane" "tree"
                "Generated_Trees" 6 1000 1 1 false (1 # 2) 0
                (mkLocals [] 0 0) centre_start).

(** The simple scene after a run of the project folder's script for two
    instances at least 3/2 apart, seeded at the start. *)
Definition spaced_run : World :=
  Eval vm_compute in
    world_of (Projekt.scatter_on_terrain (host := centre_host) "tree"
                "Generated_Trees" 2 6 1000 (7 # 10) (12 # 10) false
                (1 # 2) (3 # 2) simple_scene).

(** The scene whose template has a child, after one instance was asked of
    the script under [scripts/] and of the project folder's script. *)
Definition child_run_scripts : World :=
  Eval vm_compute in
    world_of (Scripts.scatter_on_terrain (host := centre_host) "tree"
                "Generated_Trees" 1 6 1000 (7 # 10) (12 # 10) (1 # 2) 0
                scene_with_child).

Definition child_run_projekt : World :=
  Eval vm_compute in
    world_of (Projekt.scatter_on_terrain (host := centre_host) "tree"
                "Generated_Trees" 1 6 1000 (7 # 10) (12 # 10) false (1 # 2)
                0 scene_with_child).

(** The same scene with its target ready to be filled. *)
Definition child_start : World :=
  Eval vm_compute in
    world_of ((col <- get_or_create_collection "Generated_Trees" ;;
               clear_collection (Some col)) scene_with_child).

(** The scene without a mesh after a run of the script under [scripts/]. *)
Definition without_mesh_after : World :=
  Eval vm_compute in
    world_of (Scripts.scatter_on_terrain (host := centre_host) "tree"
                "Generated_Trees" 1 6 1000 (7 # 10) (12 # 10) (1 # 2)
                (3 # 2) scene_without_mesh).

End Boxes.

(** * Vocabulary of the specification *)

(** [extends col news w w']: from [w] to [w'] the objects [news] were
    created and linked, in this order, at the end of [col]; nothing else in
    the data base changed. *)
Record extends (col : string) (news : list string) (w w' : World) : Prop :=
  mkExtends {
  ext_nodup : NoDup news;
  ext_fresh : ∀ n, n ∈ news → data_objects w !! n = None;
  ext_new : ∀ n, n ∈ news → is_Some (data_objects w' !! n);
  ext_frame : ∀ k, k ∉ news → data_objects w' !! k = data_objects w !! k;
  ext_cols : ∃ old, data_collections w !! col = Some old ∧
      data_collections w' = <[col := old ++ news]> (data_collections w);
  ext_scene : scene_children w' = scene_children w
}.

(** Every object of [l] has its parent among [news]. *)
Definition parents_in (news : list string) (w : World) (l : list string)
    : Prop :=
  ∀ n, n ∈ l → ∃ o p, data_objects w !! n = Some o ∧ parent o = Some p ∧
                      p ∈ news.

(** Two worlds with the same data base (the generator may differ). *)
Definition same_scene (w1 w2 : World) : Prop :=
  data_objects w1 = data_objects w2 ∧
  data_collections w1 = data_collections w2 ∧
  scene_children w1 = scene_children w2.

(** The world after one more [random.random()]. *)
Definition draw (w : World) : World :=
  mkWorld (data_objects w) (data_collections w) (scene_children w)
          (S (random_pos w)).

Definition vz (v : Vector) : Q := v.2.

(** A computation that never exhausts the model's loop budget. *)
Definition terminates {A} (m : M A) : Prop := ∀ w, m w ≠ Timeout.

(** [col.objects], empty for a collection that does not exist. *)
Definition members (w : World) (col : string) : list string :=
  default [] (data_collections w !! col).

(** The root of an instance in [col]: a member whose parent, if it has
    one, is not itself a member. *)
Definition is_root (w : World) (col : string) (n : string) : bool :=
  match data_objects w !! n with
  | Some o =>
      match parent o with
      | Some p => bool_decide (p ∉ members w col)
      | None => true
      end
  | None => false
  end.

(** The instances that [col] holds, by their roots, in link order. *)
Definition instances (w : World) (col : string) : list string :=
  filter (λ n, is_root w col n) (members w col).

(** [obj.location] *)
Definition position (w : World) (n : string) : option Vector :=
  location <$> data_objects w !! n.

(** Well-formed data bases: parents and collection members exist. *)
Definition parents_closed (w : World) : Prop :=
  ∀ n o p, data_objects w !! n = Some o → parent o = Some p →
           is_Some (data_objects w !! p).

Definition members_closed (w : World) : Prop :=
  ∀ c l n, data_collections w !! c = Some l → n ∈ l →
           is_Some (data_objects w !! n).

Definition world_ok (w : World) : Prop :=
  parents_closed w ∧ members_closed w.

(** The same, as a check that computes. *)
Definition world_okb (w : World) : bool :=
  forallb (λ kv : string * Object,
             match parent kv.2 with
             | Some p => bool_decide (is_Some (data_objects w !! p))
             | None => true
             end) (map_to_list (data_objects w))
  && forallb (λ kv : string * list string,
                forallb (λ n, bool_decide (is_Some (data_objects w !! n)))
                        kv.2) (map_to_list (data_collections w)).

(** A hierarchy of objects, by name: a node and the hierarchies of its
    children. *)
#[warnings="-register-all"]
Inductive tree := Node (name : string) (kids : list tree).

Definition root (t : tree) : string := let 'Node n _ := t in n.
Definition kids (t : tree) : list tree := let 'Node _ ks := t in ks.

(** The nodes, parents before children. *)
Fixpoint nodes (t : tree) : list string :=
  let 'Node n ks := t in n :: flat_map nodes ks.

Fixpoint height (t : tree) : nat :=
  let 'Node _ ks := t in S (list_max (map height ks)).

(** The hierarchy of the template of [Boxes.scene_with_child]. *)
Definition tree_with_crown : tree := Node "tree" [Node "crown" []].

(** [t] is the hierarchy that the parent pointers of [objs] hang under its
    root: the children of every node are the objects [obj.children]
    lists, in that order. *)
#[warnings="-register-all"]
Inductive hierarchy (objs : gmap string Object) : tree → Prop :=
  | hierarchy_node n ks :
      is_Some (objs !! n) →
      children_of objs n = map root ks →
      Forall (hierarchy objs) ks →
      hierarchy objs (Node n ks).

(** [t'] in [objs'] is a copy of the hierarchy [t] of [objs] below the
    root: node for node, every copied child is the template's child in all
    its properties (local transform and parent-inverse matrix among them),
    except that its parent is the copy of the template child's parent. *)
#[warnings="-register-all"]
Inductive copied (objs objs' : gmap string Object) : tree → tree → Prop :=
  | copied_node n ks n' ks' :
      Forall2 (λ k k', ∃ o, objs !! root k = Some o ∧
                 objs' !! root k' = Some (with_parent (Some n') o)) ks ks' →
      Forall2 (copied objs objs') ks ks' →
      copied objs objs' (Node n ks) (Node n' ks').

(** What [copy_with_children] needs of the template [t] in [w]: a
    hierarchy of distinct objects, hanging under a parent that is not part
    of it, in a data base whose collections hold existing objects, the
    target among the collections. *)
Definition copy_pre (col : string) (w : World) (t : tree) : Prop :=
  hierarchy (data_objects w) t ∧ NoDup (nodes t) ∧
  (∀ o p, data_objects w !! root t = Some o → parent o = Some p →
          p ∉ nodes t) ∧
  is_Some (data_collections w !! col) ∧ members_closed w.

(** What it returns: the root [r] of a hierarchy [t'] of new objects,
    linked into [col] in the order of [nodes t'], the root a copy of the
    template's root and the rest [copied] from the template. *)
Definition copy_post (col : string) (w : World) (t : tree) (r : string)
    (w' : World) (t' : tree) : Prop :=
  root t' = r ∧ extends col (nodes t') w w' ∧
  random_pos w' = random_pos w ∧
  data_objects w' !! r = data_objects w !! root t ∧
  copied (data_objects w) (data_objects w') t t'.

(** No position is closer than [d] to one recorded before it. *)
Definition spaced (d : Q) (pp : list Vector) : Prop :=
  ∀ i j p q, (i < j)%nat → pp !! i = Some p → pp !! j = Some q →
             length_ltb (vec_sub q p) d = false.

(** The counts a run may return for a requested [count]. *)
Definition within_budget (count : Z) (r : Z * Z) : Prop :=
  let '(placed, tries) := r in
  placed <= count ∧ placed <= tries ∧ tries <= count * 40 ∧
  (placed = count ∨ tries = count * 40).

(** The regeneration boundary of [scatter_on_terrain]. *)
Definition prepare (name : string) : M unit :=
  col <- get_or_create_collection name ;; clear_collection (Some col).

(** The outcomes of a run started in [w]: counts within the budget; or an
    exception, raised by validation in the unchanged world, by the
    regeneration boundary, or by the body of an attempt that the loop
    condition admitted; never an exhausted model budget. *)
Definition run_outcome_ok (count : Z) (cond : Locals → bool)
    (body : Locals → M Locals) (cname : string) (w : World)
    (o : outcome (Z * Z)) : Prop :=
  match o with
  | Return r _ => within_budget count r
  | Raise e w' =>
      (w' = w ∧ ∃ msg, e = RuntimeError msg) ∨
      prepare cname w = Raise e w' ∨
      ∃ s0 w0, cond s0 = true ∧ body s0 w0 = Raise e w'
  | Timeout => False
  end.

(** Every instance in [col] has a position, and the Euclidean distance
    between the positions of two instances is at least [d]. *)
Definition apart (d : Q) (w : World) (col : string) : Prop :=
  (∀ a, a ∈ instances w col → is_Some (position w a)) ∧
  ∀ i j a b pa pb, i ≠ j →
    instances w col !! i = Some a → instances w col !! j = Some b →
    position w a = Some pa → position w b = Some pb →
    (Q2R d <= sqrt (Q2R (length_squared (vec_sub pa pb))))%R.

(** [clear_collection] removes the members one after the other. *)
Definition remove_all (l : list string) (w : World) : World :=
  foldl (λ w0 obj, without obj w0) w l.

Section Vocabulary.
Context {host : Host}.

(** The candidate an attempt started in [w] draws: its coordinates and the
    world in which the ray is cast. *)
Definition candidate (area : Q) (w : World) : Q * Q * World :=
  ((- area + (area - - area) * random_stream (random_pos w))%Q,
   (- area + (area - - area) * random_stream (S (random_pos w)))%Q,
   draw (draw w)).

(** The spacing test of the loop body. *)
Definition too_close (min_distance : Q) (loc : Vector) (pp : list Vector)
    : bool :=
  Qltb 0 min_distance
  && any (fun p => length_ltb (vec_sub loc p) min_distance) pp.

(** The transform an accepted placement gives to the root of its instance:
    a yaw and a scale factor that [random.uniform] computed from values of
    the stream, the factor on all three axes. *)
Definition root_ok (min_scale max_scale : Q) (w : World) (r : string)
    : Prop :=
  ∃ o k1 k2, data_objects w !! r = Some o ∧
    vz (rotation_euler o)
      = radians (0 + (360 - 0) * random_stream k1)%Q ∧
    let s := (min_scale + (max_scale - min_scale) * random_stream k2)%Q in
    scale o = (s, s, s).

(** An accepted attempt created the instance with root [r], a copy of
    [src] placed at [loc], and the other objects [rest] under it. *)
Record placed_at (src col : string) (min_scale max_scale : Q) (loc : Vector)
    (r : string) (rest : list string) (w w' : World) : Prop := mkPlacedAt {
  pa_extends : extends col (r :: rest) w w';
  pa_parent : ∃ o_src o, data_objects w !! src = Some o_src ∧
      data_objects w' !! r = Some o ∧ parent o = parent o_src ∧
      location o = loc;
  pa_root : root_ok min_scale max_scale w' r;
  pa_rest : parents_in (r :: rest) w' rest
}.

(** What one pass through the loop body does to the loop variables and to
    the data base. *)
Inductive attempt (src col : string) (min_scale max_scale min_distance : Q)
    (s : Locals) (w : World) (s' : Locals) (w' : World) : Prop :=
  | attempt_rejected :
      s' = mkLocals (placed_positions s) (placed s) (tries s + 1) →
      same_scene w w' →
      attempt src col min_scale max_scale min_distance s w s' w'
  | attempt_accepted loc r rest :
      placed s' = placed s + 1 →
      tries s' = tries s + 1 →
      (if Qltb 0 min_distance
       then Forall (λ p, length_ltb (vec_sub loc p) min_distance = false)
                   (placed_positions s)
            ∧ placed_positions s' = placed_positions s ++ [loc]
       else placed_positions s' = placed_positions s) →
      placed_at src col min_scale max_scale loc r rest w w' →
      attempt src col min_scale max_scale min_distance s w s' w'.

(** An attempt of [body] that accepts its candidate has found the weight
    of the hit face at most [path_threshold]. *)
Definition accepts_below (terrain : string) (area z_start path_threshold : Q)
    (body : Locals → M Locals) (s : Locals) (w : World) : Prop :=
  let '(x, y, w2) := candidate area w in
  ∀ s' w', body s w = Return s' w' → placed s' ≠ placed s →
    ∃ loc fi wt,
      raycast_to_terrain terrain x y z_start w2
        = Return (Some (loc, fi)) w2 ∧
      vgroup_weight_at_face_avg terrain no_trees_vgroup fi w2
        = Return wt w2 ∧
      (wt <= path_threshold)%Q.

(** An attempt of [body] whose candidate has a weight above
    [path_threshold] is a [continue]: it returns, with one more try and
    nothing else changed. *)
Definition rejects_above (terrain : string) (area z_start path_threshold : Q)
    (body : Locals → M Locals) (s : Locals) (w : World) : Prop :=
  let '(x, y, w2) := candidate area w in
  ∀ loc fi wt,
    raycast_to_terrain terrain x y z_start w2
      = Return (Some (loc, fi)) w2 →
    vgroup_weight_at_face_avg terrain no_trees_vgroup fi w2
      = Return wt w2 →
    (path_threshold < wt)%Q →
    body s w
    = Return (mkLocals (placed_positions s) (placed s) (tries s + 1)) w2.

(** An attempt of [body] rejects its candidate only because the ray
    missed the terrain or because the point is too close to a placed one. *)
Definition rejects_only_unplaceable (terrain : string) (area z_start
    min_distance : Q) (body : Locals → M Locals) (s : Locals) (w : World)
    : Prop :=
  let '(x, y, w2) := candidate area w in
  ∀ s' w', body s w = Return s' w' → placed s' = placed s →
    raycast_to_terrain terrain x y z_start w2 = Return None w2 ∨
    ∃ loc fi,
      raycast_to_terrain terrain x y z_start w2
        = Return (Some (loc, fi)) w2 ∧
      too_close min_distance loc (placed_positions s) = true.

(** Every instance in [col] has a root with a yaw that [random.uniform(0,
    360)] drew, in [0, 360) degrees, and one scale factor that
    [random.uniform(min_scale, max_scale)] drew, within the range, on all
    three axes. *)
Definition transforms_in_range (min_scale max_scale : Q) (w : World)
    (col : string) : Prop :=
  ∀ r, r ∈ instances w col →
    ∃ o yaw s k1 k2, data_objects w !! r = Some o ∧
      yaw = (0 + (360 - 0) * random_stream k1)%Q ∧
      (0 <= yaw)%Q ∧ (yaw < 360)%Q ∧
      vz (rotation_euler o) = radians yaw ∧
      s = (min_scale + (max_scale - min_scale) * random_stream k2)%Q ∧
      (min_scale <= s)%Q ∧ (s <= max_scale)%Q ∧
      scale o = (s, s, s).

(** The state of a run between two attempts, [w1] being the world the
    loop started in: the target holds [placed s] instances, each with a
    root transformed as [root_ok] says, at the recorded positions. *)
Record scattering (src col : string) (min_scale max_scale min_distance : Q)
    (w1 : World) (s : Locals) (w : World) : Prop := mkScattering {
  sg_news : ∃ news, extends col news w1 w ∧
                    (news = [] ∨ is_Some (data_objects w1 !! src));
  sg_ok : world_ok w;
  sg_count : Z.of_nat (length (instances w col)) = placed s;
  sg_roots : Forall (root_ok min_scale max_scale w) (instances w col);
  sg_positions : Qltb 0 min_distance = true →
      position w <$> instances w col = Some <$> placed_positions s;
  sg_spaced : spaced min_distance (placed_positions s)
}.

End Vocabulary.
(** * Reasoning about the monad *)

Lemma bind_Return {A B} (m : M A) (k : A → M B) w b w' :
  bind m k w = Return b w' ↔ ∃ a w1, m w = Return a w1 ∧ k a w1 = Return b w'.
Proof.
  unfold bind. split.
  - destruct (m w) as [a w1| |] eqn:E; try discriminate. eauto.
  - intros (a & w1 & -> & H). exact H.
Qed.

Lemma bind_Timeout {A B} (m : M A) (k : A → M B) w :
  bind m k w = Timeout ↔
  m w = Timeout ∨ ∃ a w1, m w = Return a w1 ∧ k a w1 = Timeout.
Proof.
  unfold bind. split.
  - destruct (m w) as [a w1| |] eqn:E; try discriminate; eauto.
  - intros [-> | (a & w1 & -> & H)]; auto.
Qed.

Lemma ret_Return {A} (a b : A) w w' :
  ret a w = Return b w' ↔ a = b ∧ w = w'.
Proof. unfold ret. split; [intros [= -> ->] | intros [-> ->]]; auto. Qed.

Lemma deref_Return ref w o w' :
  deref ref w = Return o w' ↔ w' = w ∧ data_objects w !! ref = Some o.
Proof.
  unfold deref. destruct (data_objects w !! ref); split;
    try intros [= -> ->]; try intros [-> [= ->]]; auto; try discriminate.
Qed.

Lemma get_world_Return w a w' : get_world w = Return a w' ↔ a = w ∧ w' = w.
Proof. unfold get_world. split; [intros [= -> ->] | intros [-> ->]]; auto. Qed.

Lemma modify_Return f w u w' : modify f w = Return u w' ↔ w' = f w.
Proof.
  unfold modify. destruct u. split; [intros [= ->] | intros ->]; auto.
Qed.

Lemma update_Return ref f w u w' :
  update ref f w = Return u w' ↔
  ∃ o, data_objects w !! ref = Some o ∧
       w' = set_objects (insert ref (f o)) w.
Proof.
  unfold update. rewrite bind_Return. split.
  - intros (o & w1 & Hd & Hm). apply deref_Return in Hd as [-> Hd].
    apply modify_Return in Hm. eauto.
  - intros (o & Hd & ->). exists o, w. split.
    + apply deref_Return; auto.
    + apply modify_Return; auto.
Qed.

Lemma collection_objects_Return col w l w' :
  collection_objects col w = Return l w' ↔
  w' = w ∧ data_collections w !! col = Some l.
Proof.
  unfold collection_objects. destruct (data_collections w !! col); split;
    try intros [= -> ->]; try intros [-> [= ->]]; auto; try discriminate.
Qed.

Lemma Object_copy_Return ref w name w' :
  Object_copy ref w = Return name w' ↔
  ∃ o, data_objects w !! ref = Some o ∧
       name = fresh_string ref (data_objects w) ∧
       w' = set_objects (insert name o) w.
Proof.
  unfold Object_copy. rewrite bind_Return. split.
  - intros (o & w1 & Hd & H). apply deref_Return in Hd as [-> Hd].
    apply bind_Return in H as (w2 & w3 & Hg & H).
    apply get_world_Return in Hg as [-> ->].
    apply bind_Return in H as (u & w4 & Hm & H).
    apply modify_Return in Hm. apply ret_Return in H as [<- <-]. eauto.
  - intros (o & Hd & -> & ->). exists o, w. split; [by apply deref_Return|].
    apply bind_Return. exists w, w. split; [by apply get_world_Return|].
    apply bind_Return. eexists tt, _. split; [by apply modify_Return|].
    by apply ret_Return.
Qed.

Lemma collection_link_Return col obj w u w' :
  collection_link col obj w = Return u w' ↔
  ∃ l, data_collections w !! col = Some l ∧
       is_Some (data_objects w !! obj) ∧ (obj ∉ l) ∧
       w' = set_collections (insert col (l ++ [obj])) w.
Proof.
  unfold collection_link. rewrite bind_Return. split.
  - intros (l & w1 & Hc & H). apply collection_objects_Return in Hc as [-> Hc].
    apply bind_Return in H as (o & w1 & Hd & H).
    apply deref_Return in Hd as [-> Hd].
    case_bool_decide; [discriminate|].
    apply modify_Return in H. exists l. eauto.
  - intros (l & Hc & [o Ho] & Hn & ->). exists l, w.
    split; [by apply collection_objects_Return|].
    apply bind_Return. exists o, w. split; [by apply deref_Return|].
    rewrite bool_decide_eq_false_2 by done. by apply modify_Return.
Qed.

Lemma Object_children_Return ref w l w' :
  Object_children ref w = Return l w' ↔
  w' = w ∧ is_Some (data_objects w !! ref) ∧
  l = children_of (data_objects w) ref.
Proof.
  unfold Object_children. rewrite bind_Return. split.
  - intros (o & w1 & Hd & H). apply deref_Return in Hd as [-> Hd].
    apply bind_Return in H as (w2 & w3 & Hg & H).
    apply get_world_Return in Hg as [-> ->].
    apply ret_Return in H as [<- <-]. eauto.
  - intros (-> & [o Ho] & ->). exists o, w. split; [by apply deref_Return|].
    apply bind_Return. exists w, w. split; [by apply get_world_Return|].
    by apply ret_Return.
Qed.

Lemma objects_remove_Return obj w u w' :
  objects_remove obj w = Return u w' ↔
  is_Some (data_objects w !! obj) ∧ w' = without obj w.
Proof.
  unfold objects_remove. rewrite bind_Return. split.
  - intros (o & w1 & Hd & H). apply deref_Return in Hd as [-> Hd].
    apply modify_Return in H. eauto.
  - intros ([o Ho] & ->). exists o, w. split; [by apply deref_Return|].
    by apply modify_Return.
Qed.

(** Invariants of [for] loops, for the runs that return. *)
Lemma for_each_inv {A} (I : World → Prop) (body : A → M unit) (l : list A) :
  (∀ x w w', x ∈ l → I w → body x w = Return tt w' → I w') →
  ∀ w u w', I w → for_each l body w = Return u w' → I w'.
Proof.
  induction l as [|x l IH]; intros Hbody w u w' HI H; simpl in H.
  - apply ret_Return in H as [_ <-]. exact HI.
  - apply bind_Return in H as ([] & w1 & Hx & H).
    eapply (IH (λ y w0 w0' Hy, Hbody y w0 w0' (list_elem_of_further _ _ _ Hy)));
      [|exact H].
    eapply Hbody; eauto. apply list_elem_of_here.
Qed.

(** Invariants of [while] loops: on exit the condition is false. *)
Lemma while_inv {S} (I : S → World → Prop) cond (body : S → M S) :
  (∀ s w s' w', cond s = true → I s w → body s w = Return s' w' → I s' w') →
  ∀ fuel s w s' w', I s w → while fuel cond body s w = Return s' w' →
                    I s' w' ∧ cond s' = false.
Proof.
  intros Hbody fuel. induction fuel as [|fuel IH]; intros s w s' w' HI H;
    simpl in H; destruct (cond s) eqn:Hc; try discriminate.
  - apply ret_Return in H as [<- <-]. auto.
  - apply bind_Return in H as (s1 & w1 & Hb & H). eapply IH; [|exact H]. eauto.
  - apply ret_Return in H as [<- <-]. auto.
Qed.


Lemma extends_nil col w old :
  data_collections w !! col = Some old → extends col [] w w.
Proof.
  intros Hc. split; try done.
  - constructor.
  - intros n Hn. by apply elem_of_nil in Hn.
  - intros n Hn. by apply elem_of_nil in Hn.
  - exists old. split; [done|]. rewrite app_nil_r. by rewrite insert_id.
Qed.

Lemma extends_trans col l1 l2 w w1 w2 :
  extends col l1 w w1 → extends col l2 w1 w2 → extends col (l1 ++ l2) w w2.
Proof.
  intros [Hd1 Hf1 Hn1 Hfr1 (old & Ho1 & Hc1) Hs1]
         [Hd2 Hf2 Hn2 Hfr2 (old2 & Ho2 & Hc2) Hs2].
  assert (Hdisj : ∀ n, n ∈ l1 → n ∈ l2 → False).
  { intros n H1 H2. destruct (Hn1 n H1) as [o Ho].
    rewrite (Hf2 n H2) in Ho. discriminate. }
  split.
  - apply NoDup_app. split; [done|]. split; [|done].
    intros n H1 H2. eauto.
  - intros n [H1|H2]%elem_of_app; [by apply Hf1|].
    rewrite <- Hfr1; [by apply Hf2|]. intros H1. eauto.
  - intros n [H1|H2]%elem_of_app; [|by apply Hn2].
    rewrite Hfr2; [by apply Hn1|]. intros H2. eauto.
  - intros k Hk. rewrite Hfr2, Hfr1; [done| |];
      intros ?; apply Hk, elem_of_app; auto.
  - exists old. split; [done|]. rewrite Hc2, Hc1.
    rewrite Hc1, lookup_insert_eq in Ho2. injection Ho2 as <-.
    rewrite insert_insert_eq. by rewrite app_assoc.
  - congruence.
Qed.

Lemma extends_update col l w w1 k o :
  extends col l w w1 → k ∈ l →
  extends col l w (set_objects (insert k o) w1).
Proof.
  intros [Hd Hf Hn Hfr Hc Hs] Hk. split; simpl; try done.
  - intros n Hn'. destruct (decide (k = n)) as [->|Hne].
    + rewrite lookup_insert_eq. eauto.
    + rewrite lookup_insert_ne by done. by apply Hn.
  - intros n Hn'. rewrite lookup_insert_ne; [by apply Hfr|].
    intros ->. done.
Qed.

Lemma extends_copy_link col w n o l :
  data_objects w !! n = None → data_collections w !! col = Some l →
  extends col [n] w
    (set_collections (insert col (l ++ [n])) (set_objects (insert n o) w)).
Proof.
  intros Hn Hl. split; simpl.
  - apply NoDup_singleton.
  - intros m ->%list_elem_of_singleton. done.
  - intros m ->%list_elem_of_singleton. rewrite lookup_insert_eq. eauto.
  - intros k Hk. rewrite lookup_insert_ne; [done|].
    intros ->. apply Hk, list_elem_of_singleton. done.
  - eauto.
  - done.
Qed.

Lemma set_objects_insert_insert k o1 o2 w :
  set_objects (insert k o2) (set_objects (insert k o1) w)
  = set_objects (insert k o2) w.
Proof. unfold set_objects. simpl. by rewrite insert_insert_eq. Qed.

Section Replication.
Context {host : Host}.

(** What a call of [copy_with_children] that returns has done: it created
    the returned root as a copy of [src_obj] and, after it, objects whose
    parents are among the created ones. *)
Lemma copy_with_children_extends depth : ∀ src_obj col w r w',
  copy_with_children depth src_obj col w = Return r w' →
  ∃ rest, extends col (r :: rest) w w' ∧ random_pos w' = random_pos w ∧
    (∃ o, data_objects w !! src_obj = Some o ∧
          data_objects w' !! r = Some o) ∧
    parents_in (r :: rest) w' rest.
Proof.
  induction depth as [|depth IH]; intros src_obj col w r w' H; simpl in H;
    [discriminate|].
  apply bind_Return in H as (r0 & w1 & Hcopy & H).
  apply Object_copy_Return in Hcopy as (o & Hsrc & Hr0 & ->).
  apply bind_Return in H as ([] & w2 & Hlink & H).
  apply collection_link_Return in Hlink as (l & Hl & _ & _ & ->).
  apply bind_Return in H as (cs & w3 & Hch & H).
  apply Object_children_Return in Hch as (-> & _ & _).
  apply bind_Return in H as ([] & w3 & Hfor & H).
  apply ret_Return in H as [-> ->]. simpl in Hl.
  assert (Hfresh : data_objects w !! r = None).
  { subst r. apply fresh_string_fresh. }
  set (w2 := set_collections _ _) in Hfor.
  assert (Hstart : extends col [r] w w2) by by apply extends_copy_link.
  pose (I := λ wc : World,
    ∃ rest, extends col (r :: rest) w wc ∧ random_pos wc = random_pos w ∧
            data_objects wc !! r = Some o ∧ parents_in (r :: rest) wc rest).
  cut (I w').
  { intros (rest & ? & ? & ? & ?). exists rest. eauto 10. }
  eapply (for_each_inv I); [| |exact Hfor].
  2:{ exists []. split; [done|]. split; [done|]. split.
      - unfold w2. simpl. by rewrite lookup_insert_eq.
      - intros n Hn. by apply elem_of_nil in Hn. }
  clear Hfor. intros child wc wn _ (rest & Hext & Hrand & Hr & Hpar) H.
  apply bind_Return in H as (rc & wc1 & Hrec & H).
  apply IH in Hrec as (restc & Hextc & Hrandc & (oc & Hchild & Hrc) & Hparc).
  apply bind_Return in H as ([] & wu1 & Hu1 & H).
  apply update_Return in Hu1 as (o1 & Ho1 & ->).
  apply bind_Return in H as (c1 & ? & Hd1 & H).
  apply deref_Return in Hd1 as [-> Hd1].
  apply bind_Return in H as ([] & wu2 & Hu2 & H).
  apply update_Return in Hu2 as (o2 & Ho2 & ->).
  apply bind_Return in H as (c2 & ? & Hd2 & H).
  apply deref_Return in Hd2 as [-> Hd2].
  apply update_Return in H as (o3 & Ho3 & ->).
  simpl in *. rewrite lookup_insert_eq in Ho2. injection Ho2 as <-.
  rewrite lookup_insert_eq in Ho3. injection Ho3 as <-.
  rewrite !set_objects_insert_insert.
  set (o' := with_matrix_basis _ _).
  assert (Hpo' : parent o' = Some r) by done.
  clearbody o'. unfold I.
  assert (Hin_rc : rc ∈ rc :: restc) by apply list_elem_of_here.
  assert (Hold : ∀ n, n ∈ r :: rest → n ∉ rc :: restc).
  { intros n Hn Hn'. destruct (ext_new _ _ _ _ Hext n Hn) as [x Hx].
    rewrite (ext_fresh _ _ _ _ Hextc n Hn') in Hx. discriminate. }
  exists (rest ++ rc :: restc). split; [|split; [|split]].
  - change (r :: rest ++ rc :: restc) with ((r :: rest) ++ rc :: restc).
    eapply extends_trans; [exact Hext|].
    by apply extends_update.
  - simpl. congruence.
  - simpl. rewrite lookup_insert_ne.
    + rewrite (ext_frame _ _ _ _ Hextc); [done|].
      apply Hold, list_elem_of_here.
    + intros ->. eapply Hold; [apply list_elem_of_here|done].
  - intros n [Hn|Hn]%elem_of_app; simpl.
    + assert (n ∉ rc :: restc) by (apply Hold; by apply list_elem_of_further).
      destruct (Hpar n Hn) as (on & p & Hon & Hp & Hpin).
      exists on, p. split; [|split; [done|]].
      * rewrite lookup_insert_ne by (intros ->; done).
        by rewrite (ext_frame _ _ _ _ Hextc).
      * change (r :: rest ++ rc :: restc) with ((r :: rest) ++ rc :: restc).
        apply elem_of_app. auto.
    + apply elem_of_cons in Hn as [->|Hn].
      * exists o', r. rewrite lookup_insert_eq. split; [done|].
        split; [done|]. apply list_elem_of_here.
      * destruct (Hparc n Hn) as (on & p & Hon & Hp & Hpin).
        exists on, p. split; [|split; [done|]].
        -- rewrite lookup_insert_ne; [done|]. intros ->.
           pose proof (ext_nodup _ _ _ _ Hextc) as Hnd.
           apply NoDup_cons in Hnd as [Hnd _]. done.
        -- apply list_elem_of_further, elem_of_app. auto.
Qed.

End Replication.


Lemma same_scene_refl w : same_scene w w.
Proof. by repeat split. Qed.

Lemma same_scene_sym w1 w2 : same_scene w1 w2 → same_scene w2 w1.
Proof. intros (? & ? & ?). by repeat split. Qed.

Lemma same_scene_trans w1 w2 w3 :
  same_scene w1 w2 → same_scene w2 w3 → same_scene w1 w3.
Proof. intros (? & ? & ?) (? & ? & ?). repeat split; congruence. Qed.

Lemma extends_same_scene col l w1 w1' w2 w2' :
  same_scene w1 w1' → same_scene w2 w2' →
  extends col l w1 w2 → extends col l w1' w2'.
Proof.
  intros (Ho1 & Hc1 & Hs1) (Ho2 & Hc2 & Hs2) [Hd Hf Hn Hfr Hc Hs].
  split; rewrite <- ?Ho1, <- ?Ho2, <- ?Hc1, <- ?Hc2, <- ?Hs1, <- ?Hs2; done.
Qed.

Lemma parents_in_same_scene news w w' l :
  same_scene w w' → parents_in news w l → parents_in news w' l.
Proof. intros (Ho & _ & _) H n Hn. rewrite <- Ho. by apply H. Qed.


Lemma same_scene_draw w : same_scene w (draw w).
Proof. by repeat split. Qed.


Lemma vz_set_z a v : vz (set_z a v) = a.
Proof. by destruct v as [[? ?] ?]. Qed.

Section Attempt.
Context {host : Host}.

Lemma random_uniform_Return a b w x w' :
  random_uniform a b w = Return x w' ↔
  x = (a + (b - a) * random_stream (random_pos w))%Q ∧ w' = draw w.
Proof.
  unfold random_uniform, bind, random_random, ret, draw.
  split; [intros [= <- <-] | intros [-> ->]]; done.
Qed.

Lemma raycast_to_terrain_Return terrain x y z_start w r w' :
  raycast_to_terrain terrain x y z_start w = Return r w' →
  w' = w ∧
  (r = None ∨
   is_Some (data_objects w !! terrain) ∧
   let res := ray_cast w (x, y, z_start) (0, 0, - (1))%Q in
   hit res = true ∧ hit_obj res = Some terrain ∧
   r = Some (hit_location res, hit_face_index res)).
Proof.
  unfold raycast_to_terrain. intros H.
  apply bind_Return in H as (w0 & w1 & Hg & H).
  apply get_world_Return in Hg as [-> ->].
  destruct (hit (ray_cast w _ _)) eqn:Hhit.
  - destruct (hit_obj (ray_cast w _ _)) as [h|] eqn:Hobj.
    + apply bind_Return in H as (o & w1 & Hd & H).
      apply deref_Return in Hd as [-> Hd].
      destruct (String.eqb h terrain) eqn:He.
      * apply ret_Return in H as [<- <-]. split; [done|]. right.
        apply String.eqb_eq in He as ->. eauto.
      * apply ret_Return in H as [<- <-]. auto.
    + apply ret_Return in H as [<- <-]. auto.
  - apply ret_Return in H as [<- <-]. auto.
Qed.

Lemma vgroup_weight_at_face_avg_Return terrain name fi w q w' :
  vgroup_weight_at_face_avg terrain name fi w = Return q w' → w' = w.
Proof.
  unfold vgroup_weight_at_face_avg. intros H.
  apply bind_Return in H as (t & w1 & Hd & H).
  apply deref_Return in Hd as [-> Hd].
  destruct (vertex_groups t !! name); [|by apply ret_Return in H as [_ <-]].
  destruct (data t); [|discriminate].
  destruct (py_index _ _); [|discriminate].
  by apply ret_Return in H as [_ <-].
Qed.


Lemma any_false {A} (f : A → bool) l :
  any f l = false → Forall (λ p, f p = false) l.
Proof.
  unfold any. induction l as [|x l IH]; simpl; [constructor|].
  intros [? ?]%orb_false_iff. constructor; auto.
Qed.

Lemma Projekt_place_placed_at src col min_scale max_scale loc pp p t
    w s' w' :
  Projekt.place src col min_scale max_scale loc pp p t w = Return s' w' →
  s' = mkLocals pp (p + 1) t ∧
  ∃ r rest, placed_at src col min_scale max_scale loc r rest w w'.
Proof.
  unfold Projekt.place. intros H.
  apply bind_Return in H as (r & w1 & Hcopy & H).
  apply copy_with_children_extends in Hcopy
    as (rest & Hext & Hrand & (osrc & Hsrc & Hr) & Hpar).
  apply bind_Return in H as ([] & w2 & Hu & H).
  apply update_Return in Hu as (o1 & Ho1 & ->).
  apply bind_Return in H as (yaw & w3 & Hy & H).
  apply random_uniform_Return in Hy as [-> ->].
  apply bind_Return in H as (o2 & w4 & Hd & H).
  apply deref_Return in Hd as [-> Hd].
  apply bind_Return in H as ([] & w5 & Hu & H).
  apply update_Return in Hu as (o3 & Ho3 & ->).
  apply bind_Return in H as (sc & w6 & Hs & H).
  apply random_uniform_Return in Hs as [-> ->].
  apply bind_Return in H as ([] & w7 & Hu & H).
  apply update_Return in Hu as (o4 & Ho4 & ->).
  apply ret_Return in H as [<- <-]. split; [done|].
  simpl in *. rewrite lookup_insert_eq in Hd, Ho3, Ho4.
  injection Hd as <-. injection Ho3 as <-. injection Ho4 as <-.
  rewrite Hr in Ho1. injection Ho1 as <-.
  set (o' := with_scale _ _).
  match goal with |- ∃ _ _, placed_at _ _ _ _ _ _ _ _ ?W => set (wf := W) end.
  assert (Hscene : same_scene (set_objects (insert r o') w1) wf).
  { unfold wf, same_scene, set_objects, draw. simpl.
    by rewrite !insert_insert_eq. }
  assert (Hlook : data_objects wf !! r = Some o')
    by (unfold wf; simpl; by rewrite lookup_insert_eq).
  assert (Hin : r ∈ r :: rest) by apply list_elem_of_here.
  exists r, rest. split.
  - eapply extends_same_scene; [apply same_scene_refl|exact Hscene|].
    by apply extends_update.
  - exists osrc, o'. by repeat split.
  - exists o', (random_pos w1), (S (random_pos w1)).
    split; [done|]. split; [|done]. apply vz_set_z.
  - eapply parents_in_same_scene; [exact Hscene|].
    intros n Hn. destruct (Hpar n Hn) as (on & p0 & Hon & Hp0 & Hpin).
    exists on, p0. simpl. rewrite lookup_insert_ne; [done|].
    intros ->. pose proof (ext_nodup _ _ _ _ Hext) as Hnd.
    apply NoDup_cons in Hnd as [Hnd _]. done.
Qed.

Lemma Projekt_loop_body_attempt terrain src col area z_start min_scale
    max_scale use_vgroup path_threshold min_distance s w s' w' :
  Projekt.loop_body terrain src col area z_start min_scale max_scale
    use_vgroup path_threshold min_distance s w = Return s' w' →
  attempt src col min_scale max_scale min_distance s w s' w'.
Proof.
  unfold Projekt.loop_body. intros H.
  apply bind_Return in H as (x & w1 & Hx & H).
  apply random_uniform_Return in Hx as [-> ->].
  apply bind_Return in H as (y & w2 & Hy & H).
  apply random_uniform_Return in Hy as [-> ->].
  apply bind_Return in H as (r & w3 & Hray & H).
  apply raycast_to_terrain_Return in Hray as [-> _].
  assert (Hdd : same_scene w (draw (draw w))) by by repeat split.
  destruct r as [[loc face_index]|].
  2:{ apply ret_Return in H as [<- <-]. by apply attempt_rejected. }
  apply bind_Return in H as (reject & w3 & Hrej & H).
  assert (w3 = draw (draw w)) as ->.
  { destruct use_vgroup.
    - apply bind_Return in Hrej as (q & w4 & Hq & Hrej).
      apply vgroup_weight_at_face_avg_Return in Hq as ->.
      by apply ret_Return in Hrej as [_ <-].
    - by apply ret_Return in Hrej as [_ <-]. }
  destruct reject.
  { apply ret_Return in H as [<- <-]. by apply attempt_rejected. }
  destruct (Qltb 0 min_distance) eqn:Hmd.
  - destruct (any _ _) eqn:Hany.
    { apply ret_Return in H as [<- <-]. by apply attempt_rejected. }
    apply Projekt_place_placed_at in H as (-> & r & rest & [He Hp Hr Hrest]).
    apply (attempt_accepted _ _ _ _ _ _ _ _ _ loc r rest); simpl; try done.
    + rewrite Hmd. split; [|done]. by apply any_false.
    + split; try done.
      eapply extends_same_scene;
        [apply same_scene_sym, Hdd|apply same_scene_refl|done].
  - apply Projekt_place_placed_at in H as (-> & r & rest & [He Hp Hr Hrest]).
    apply (attempt_accepted _ _ _ _ _ _ _ _ _ loc r rest); simpl; try done.
    + by rewrite Hmd.
    + split; try done.
      eapply extends_same_scene;
        [apply same_scene_sym, Hdd|apply same_scene_refl|done].
Qed.

Lemma Scripts_place_placed_at src col min_scale max_scale loc pp p t
    w s' w' :
  Scripts.place src col min_scale max_scale loc pp p t w = Return s' w' →
  s' = mkLocals pp (p + 1) t ∧
  ∃ r, placed_at src col min_scale max_scale loc r [] w w'.
Proof.
  unfold Scripts.place. intros H.
  apply bind_Return in H as (r & w1 & Hcopy & H).
  apply Object_copy_Return in Hcopy as (osrc & Hsrc & Hr & ->).
  assert (Hfresh : data_objects w !! r = None).
  { subst r. apply fresh_string_fresh. }
  clear Hr.
  apply bind_Return in H as (o0 & w2 & Hd & H).
  apply deref_Return in Hd as [-> Hd].
  apply bind_Return in H as ([] & w2 & Hdata & H).
  assert (∃ o1, parent o1 = parent osrc ∧
                rotation_euler o1 = rotation_euler osrc ∧
                w2 = set_objects (insert r o1) w) as (o1 & Hp1 & Hrot1 & ->).
  { destruct (data o0) as [me|].
    - apply update_Return in Hdata as (o1 & Ho1 & ->). simpl in Ho1.
      rewrite lookup_insert_eq in Ho1. injection Ho1 as <-.
      exists (with_data (Some me) osrc).
      rewrite set_objects_insert_insert. split; [|split]; done.
    - apply ret_Return in Hdata as [_ <-]. by exists osrc. }
  apply bind_Return in H as ([] & w2 & Hu & H).
  apply update_Return in Hu as (o2 & Ho2 & ->).
  apply bind_Return in H as (yaw & w3 & Hy & H).
  apply random_uniform_Return in Hy as [-> ->].
  apply bind_Return in H as (o3 & w4 & Hd3 & H).
  apply deref_Return in Hd3 as [-> Hd3].
  apply bind_Return in H as ([] & w5 & Hu & H).
  apply update_Return in Hu as (o4 & Ho4 & ->).
  apply bind_Return in H as (sc & w6 & Hs & H).
  apply random_uniform_Return in Hs as [-> ->].
  apply bind_Return in H as ([] & w7 & Hu & H).
  apply update_Return in Hu as (o5 & Ho5 & ->).
  apply bind_Return in H as ([] & w8 & Hl & H).
  apply collection_link_Return in Hl as (l & Hl & _ & _ & ->).
  apply ret_Return in H as [<- <-]. split; [done|].
  simpl in *. rewrite lookup_insert_eq in Ho2, Hd3, Ho4, Ho5.
  injection Ho2 as <-. injection Hd3 as <-. injection Ho4 as <-.
  injection Ho5 as <-.
  set (o' := with_scale _ _).
  match goal with |- ∃ _, placed_at _ _ _ _ _ _ _ _ ?W => set (wf := W) end.
  assert (Hscene : same_scene
    (set_collections (insert col (l ++ [r])) (set_objects (insert r o') w))
    wf).
  { unfold wf, same_scene, set_collections, set_objects, draw. simpl.
    by rewrite !insert_insert_eq. }
  assert (Hlook : data_objects wf !! r = Some o').
  { destruct Hscene as (<- & _ & _). simpl. by rewrite lookup_insert_eq. }
  exists r. split.
  - eapply extends_same_scene; [apply same_scene_refl|exact Hscene|].
    by apply extends_copy_link.
  - exists osrc, o'. by repeat split.
  - exists o', (random_pos w), (S (random_pos w)).
    split; [done|]. split; [|done]. unfold o'. simpl.
    rewrite vz_set_z. done.
  - intros n Hn. by apply elem_of_nil in Hn.
Qed.

Lemma Scripts_loop_body_attempt terrain src col area z_start min_scale
    max_scale path_threshold min_distance s w s' w' :
  Scripts.loop_body terrain src col area z_start min_scale max_scale
    path_threshold min_distance s w = Return s' w' →
  attempt src col min_scale max_scale min_distance s w s' w'.
Proof.
  unfold Scripts.loop_body. intros H.
  apply bind_Return in H as (x & w1 & Hx & H).
  apply random_uniform_Return in Hx as [-> ->].
  apply bind_Return in H as (y & w2 & Hy & H).
  apply random_uniform_Return in Hy as [-> ->].
  apply bind_Return in H as (r & w3 & Hray & H).
  apply raycast_to_terrain_Return in Hray as [-> _].
  assert (Hdd : same_scene w (draw (draw w))) by by repeat split.
  destruct r as [[loc face_index]|].
  2:{ apply ret_Return in H as [<- <-]. by apply attempt_rejected. }
  apply bind_Return in H as (q & w3 & Hq & H).
  apply vgroup_weight_at_face_avg_Return in Hq as ->.
  destruct (Qltb path_threshold q).
  { apply ret_Return in H as [<- <-]. by apply attempt_rejected. }
  destruct (Qltb 0 min_distance) eqn:Hmd.
  - destruct (any _ _) eqn:Hany.
    { apply ret_Return in H as [<- <-]. by apply attempt_rejected. }
    apply Scripts_place_placed_at in H as (-> & r & [He Hp Hr Hrest]).
    apply (attempt_accepted _ _ _ _ _ _ _ _ _ loc r []); simpl; try done.
    + rewrite Hmd. split; [|done]. by apply any_false.
    + split; try done.
      eapply extends_same_scene;
        [apply same_scene_sym, Hdd|apply same_scene_refl|done].
  - apply Scripts_place_placed_at in H as (-> & r & [He Hp Hr Hrest]).
    apply (attempt_accepted _ _ _ _ _ _ _ _ _ loc r []); simpl; try done.
    + by rewrite Hmd.
    + split; try done.
      eapply extends_same_scene;
        [apply same_scene_sym, Hdd|apply same_scene_refl|done].
Qed.

End Attempt.

(** * Well-formed worlds, removal and clearing *)

Lemma world_okb_sound w : world_okb w = true → world_ok w.
Proof.
  unfold world_okb. intros [H1 H2]%andb_true_iff.
  rewrite forallb_forall in H1. rewrite forallb_forall in H2. split.
  - intros n o p Hn Hp.
    specialize (H1 (n, o)). simpl in H1. rewrite Hp in H1.
    rewrite bool_decide_eq_true in H1. apply H1, list_elem_of_In.
    by apply elem_of_map_to_list.
  - intros c l n Hc Hn.
    specialize (H2 (c, l)). simpl in H2.
    rewrite forallb_forall in H2.
    rewrite <- bool_decide_eq_true. apply H2; [|by apply list_elem_of_In].
    by apply list_elem_of_In, elem_of_map_to_list.
Qed.

Lemma lookup_without m w k :
  data_objects (without m w) !! k
  = if decide (k = m) then None else unparent m <$> data_objects w !! k.
Proof.
  unfold without. simpl. rewrite lookup_fmap. case_decide as Hk.
  - subst k. by rewrite lookup_delete_eq.
  - by rewrite lookup_delete_ne.
Qed.

Lemma collections_without m w c :
  data_collections (without m w) !! c
  = filter (λ n, n ≠ m) <$> data_collections w !! c.
Proof. unfold without. simpl. by rewrite lookup_fmap. Qed.

Lemma parent_unparent m o p :
  parent (unparent m o) = Some p → parent o = Some p ∧ p ≠ m.
Proof.
  unfold unparent. case_bool_decide as Hm; simpl; [discriminate|].
  intros Hp. split; [done|]. intros ->. done.
Qed.

Lemma world_ok_without m w : world_ok w → world_ok (without m w).
Proof.
  intros [Hp Hm]. split.
  - intros n o p Hn Hpar. rewrite lookup_without in Hn.
    case_decide; [discriminate|].
    destruct (data_objects w !! n) as [o0|] eqn:Hn0; [|discriminate].
    injection Hn as <-. apply parent_unparent in Hpar as [Hpar Hne].
    destruct (Hp n o0 p Hn0 Hpar) as [op Hop].
    rewrite lookup_without, decide_False, Hop by done. eauto.
  - intros c l n Hc Hn. rewrite collections_without in Hc.
    destruct (data_collections w !! c) as [l0|] eqn:Hc0; [|discriminate].
    injection Hc as <-. apply list_elem_of_filter in Hn as [Hne Hn].
    destruct (Hm c l0 n Hc0 Hn) as [on Hon].
    rewrite lookup_without, decide_False, Hon by done. eauto.
Qed.

Lemma world_ok_remove_all l : ∀ w, world_ok w → world_ok (remove_all l w).
Proof.
  induction l as [|m l IH]; intros w Hw; [done|].
  apply (IH (without m w)), world_ok_without, Hw.
Qed.

Lemma remove_all_cons m l w :
  remove_all (m :: l) w = remove_all l (without m w).
Proof. done. Qed.

(** What is left of an object once the objects [l] are removed. *)
Lemma lookup_remove_all l : ∀ w k,
  data_objects (remove_all l w) !! k
  = if decide (k ∈ l) then None
    else (λ o, foldl (λ o0 m, unparent m o0) o l) <$> data_objects w !! k.
Proof.
  induction l as [|m l IH]; intros w k.
  - simpl. destruct (decide (k ∈ [])) as [Hk|_].
    + by apply elem_of_nil in Hk.
    + by destruct (data_objects w !! k).
  - rewrite remove_all_cons, IH, lookup_without.
    destruct (decide (k ∈ m :: l)) as [Hk|Hk].
    + destruct (decide (k ∈ l)); [done|].
      apply elem_of_cons in Hk as [->|?]; [|done].
      by rewrite decide_True.
    + apply not_elem_of_cons in Hk as [Hne Hnin].
      rewrite decide_False, decide_False by done.
      by destruct (data_objects w !! k).
Qed.

Lemma collections_remove_all l : ∀ w c,
  data_collections (remove_all l w) !! c
  = filter (λ n, n ∉ l) <$> data_collections w !! c.
Proof.
  induction l as [|m l IH]; intros w c.
  - simpl. destruct (data_collections w !! c) as [l0|]; [|done]. simpl.
    f_equal. symmetry. induction l0 as [|x l0 IH0]; [done|].
    rewrite filter_cons_True by apply not_elem_of_nil. by f_equal.
  - rewrite remove_all_cons, IH, collections_without.
    destruct (data_collections w !! c) as [l0|]; [|done]. simpl. f_equal.
    rewrite list_filter_filter. apply list_filter_iff.
    intros x. rewrite not_elem_of_cons. tauto.
Qed.

Lemma scene_children_remove_all l : ∀ w,
  scene_children (remove_all l w) = scene_children w.
Proof. induction l as [|m l IH]; intros w; [done|]. by rewrite remove_all_cons, IH. Qed.

Lemma random_pos_remove_all l : ∀ w,
  random_pos (remove_all l w) = random_pos w.
Proof. induction l as [|m l IH]; intros w; [done|]. by rewrite remove_all_cons, IH. Qed.

Lemma for_each_remove_Return l : ∀ w u w',
  for_each l objects_remove w = Return u w' → w' = remove_all l w.
Proof.
  induction l as [|m l IH]; intros w u w' H; simpl in H.
  - by apply ret_Return in H as [_ <-].
  - apply bind_Return in H as ([] & w1 & Hr & H).
    apply objects_remove_Return in Hr as [_ ->]. by apply IH in H.
Qed.

(** Removing distinct objects that exist does not fail. *)
Lemma for_each_remove_exists l : ∀ w,
  NoDup l → (∀ n, n ∈ l → is_Some (data_objects w !! n)) →
  for_each l objects_remove w = Return tt (remove_all l w).
Proof.
  induction l as [|m l IH]; intros w Hnd Hex; [done|].
  apply NoDup_cons in Hnd as [Hm Hnd]. rewrite remove_all_cons.
  change (for_each (m :: l) objects_remove)
    with (bind (objects_remove m) (λ _, for_each l objects_remove)).
  apply bind_Return. exists tt, (without m w). split.
  - apply objects_remove_Return. split; [|done]. apply Hex, list_elem_of_here.
  - apply IH; [done|]. intros n Hn.
    rewrite lookup_without, decide_False by (intros ->; done).
    destruct (Hex n (list_elem_of_further _ _ _ Hn)) as [o ->]. simpl. eauto.
Qed.

Lemma clear_collection_Return col w u w' :
  clear_collection (Some col) w = Return u w' →
  ∃ l, data_collections w !! col = Some l ∧ w' = remove_all l w.
Proof.
  unfold clear_collection. intros H.
  apply bind_Return in H as (l & w1 & Hc & H).
  apply collection_objects_Return in Hc as [-> Hc].
  apply for_each_remove_Return in H. eauto.
Qed.

Lemma get_or_create_collection_Return name w c w' :
  get_or_create_collection name w = Return c w' →
  c = name ∧ is_Some (data_collections w' !! name) ∧
  data_objects w' = data_objects w ∧ random_pos w' = random_pos w ∧
  (is_Some (data_collections w !! name) → w' = w) ∧
  (∀ c0, c0 ≠ name → data_collections w' !! c0 = data_collections w !! c0) ∧
  (∀ l, data_collections w' !! name = Some l →
        data_collections w !! name = Some l ∨ l = []).
Proof.
  unfold get_or_create_collection, collections_get, bind. intros H.
  destruct (data_collections w !! name) as [l|] eqn:Hn.
  - apply ret_Return in H as [<- <-]. rewrite Hn. repeat split; eauto.
  - unfold modify, ret in H. simpl in H. injection H as <- <-. simpl.
    rewrite lookup_insert_eq. repeat split; eauto.
    + by intros [? ?].
    + intros c0 Hc0. by rewrite lookup_insert_ne.
    + intros l [= <-]. auto.
Qed.


Lemma filter_not_elem_of_nil (l l' : list string) :
  (∀ n, n ∈ l → n ∈ l') → filter (λ n, n ∉ l') l = [].
Proof.
  induction l as [|x l IH]; intros Hsub; [done|].
  rewrite filter_cons_False.
  - apply IH. intros n Hn. by apply Hsub, list_elem_of_further.
  - intros Hx. apply Hx, Hsub, list_elem_of_here.
Qed.

Lemma filter_not_elem_of_id (l l' : list string) :
  (∀ n, n ∈ l → n ∉ l') → filter (λ n, n ∉ l') l = l.
Proof.
  induction l as [|x l IH]; intros Hsub; [done|].
  rewrite filter_cons_True by apply Hsub, list_elem_of_here.
  f_equal. apply IH. intros n Hn. by apply Hsub, list_elem_of_further.
Qed.

Lemma type_unparent_all l o :
  type (foldl (λ o0 m, unparent m o0) o l) = type o.
Proof.
  revert o. induction l as [|m l IH]; intros o; [done|]. simpl.
  rewrite IH. unfold unparent. by case_bool_decide.
Qed.

(** After [get_or_create_collection] and [clear_collection] the target
    exists and is empty, in a well-formed world; what was not in the target
    is still there. *)
Lemma prepare_Return name w u w' :
  prepare name w = Return u w' →
  world_ok w →
  world_ok w' ∧ data_collections w' !! name = Some [] ∧
  random_pos w' = random_pos w ∧
  (∀ k o, data_objects w !! k = Some o → k ∉ members w name →
          ∃ o', data_objects w' !! k = Some o' ∧ type o' = type o).
Proof.
  unfold prepare. intros H [Hp Hm].
  apply bind_Return in H as (c & w1 & Hg & H).
  apply get_or_create_collection_Return in Hg
    as (-> & [l0 Hl0] & Ho & Hr & Hsame & Hother & Hl).
  apply clear_collection_Return in H as (l & Hc & ->).
  rewrite Hl0 in Hc. injection Hc as ->.
  assert (Hok1 : world_ok w1).
  { split.
    - intros n o p. rewrite Ho. apply Hp.
    - intros c0 l1 n Hc0 Hn. rewrite Ho.
      destruct (decide (c0 = name)) as [->|Hne].
      + destruct (Hl _ Hc0) as [Hw| ->]; [by eapply Hm|].
        by apply elem_of_nil in Hn.
      + rewrite Hother in Hc0 by done. by eapply Hm. }
  split; [by apply world_ok_remove_all|]. split; [|split].
  - rewrite collections_remove_all, Hl0. simpl. f_equal.
    by apply filter_not_elem_of_nil.
  - by rewrite random_pos_remove_all.
  - intros k o Hk Hnin. rewrite lookup_remove_all, Ho, Hk.
    rewrite decide_False.
    + simpl. eexists. split; [done|]. apply type_unparent_all.
    + intros Hin. apply Hnin. unfold members.
      destruct (Hl _ Hl0) as [-> | ->]; [done|].
      by apply elem_of_nil in Hin.
Qed.

(** * The loop invariant *)

Lemma filter_ext_elem {A} (P1 P2 : A → Prop) `{!∀ x, Decision (P1 x)}
    `{!∀ x, Decision (P2 x)} (l : list A) :
  (∀ x, x ∈ l → (P1 x ↔ P2 x)) → filter P1 l = filter P2 l.
Proof.
  induction l as [|a l IH]; intros Hiff; [done|].
  assert (IH' : filter P1 l = filter P2 l).
  { apply IH. intros x Hx. by apply Hiff, list_elem_of_further. }
  destruct (decide (P1 a)) as [H1|H1].
  - rewrite !filter_cons_True; [by rewrite IH'|by apply Hiff; [left|]|done].
  - rewrite !filter_cons_False; [done| |done].
    intros H2. by apply H1, Hiff; [left|].
Qed.

Lemma filter_none {A} (P : A → Prop) `{!∀ x, Decision (P x)} (l : list A) :
  (∀ x, x ∈ l → ¬ P x) → filter P l = [].
Proof.
  induction l as [|a l IH]; intros Hno; [done|].
  rewrite filter_cons_False by (apply Hno; by left).
  apply IH. intros x Hx. by apply Hno, list_elem_of_further.
Qed.

Lemma fmap_ext_elem {A B} (f g : A → B) (l : list A) :
  (∀ x, x ∈ l → f x = g x) → f <$> l = g <$> l.
Proof.
  induction l as [|a l IH]; intros Heq; [done|]. simpl. f_equal.
  - apply Heq. by left.
  - apply IH. intros x Hx. by apply Heq, list_elem_of_further.
Qed.

Lemma members_same_scene w w' col :
  same_scene w w' → members w' col = members w col.
Proof. intros (_ & Hc & _). unfold members. by rewrite Hc. Qed.

Lemma is_root_same_scene w w' col n :
  same_scene w w' → is_root w' col n = is_root w col n.
Proof.
  intros Hs. unfold is_root. rewrite (members_same_scene _ _ _ Hs).
  destruct Hs as (Ho & _ & _). by rewrite Ho.
Qed.

Lemma instances_same_scene w w' col :
  same_scene w w' → instances w' col = instances w col.
Proof.
  intros Hs. unfold instances. rewrite (members_same_scene _ _ _ Hs).
  apply list_filter_iff. intros n. by rewrite (is_root_same_scene _ _ _ _ Hs).
Qed.

Lemma world_ok_same_scene w w' : same_scene w w' → world_ok w → world_ok w'.
Proof.
  intros (Ho & Hc & _) [Hp Hm]. split.
  - intros n o p. rewrite <- Ho. apply Hp.
  - intros c l n. rewrite <- Ho, <- Hc. apply Hm.
Qed.

Lemma members_extends col news w w' :
  extends col news w w' → members w' col = members w col ++ news.
Proof.
  intros [_ _ _ _ (old & Ho & Hc) _]. unfold members.
  by rewrite Hc, lookup_insert_eq, Ho.
Qed.

Lemma extends_lookup_old col news w w' n :
  extends col news w w' → is_Some (data_objects w !! n) →
  (n ∉ news) ∧ data_objects w' !! n = data_objects w !! n.
Proof.
  intros Hext [o Ho].
  assert (Hn : n ∉ news).
  { intros Hn. rewrite (ext_fresh _ _ _ _ Hext n Hn) in Ho. discriminate. }
  split; [done|]. by apply (ext_frame _ _ _ _ Hext).
Qed.

Lemma extends_members_closed col news w w' :
  extends col news w w' → members_closed w → members_closed w'.
Proof.
  intros Hext Hm c l n Hc Hn.
  destruct (ext_cols _ _ _ _ Hext) as (old & Ho & Hcols).
  rewrite Hcols in Hc. destruct (decide (col = c)) as [->|Hne].
  - rewrite lookup_insert_eq in Hc. injection Hc as <-.
    apply elem_of_app in Hn as [Hn|Hn].
    + destruct (extends_lookup_old _ _ _ _ n Hext (Hm _ _ _ Ho Hn)) as [_ ->].
      exact (Hm _ _ _ Ho Hn).
    + by apply (ext_new _ _ _ _ Hext).
  - rewrite lookup_insert_ne in Hc by done.
    destruct (extends_lookup_old _ _ _ _ n Hext (Hm _ _ _ Hc Hn)) as [_ ->].
    exact (Hm _ _ _ Hc Hn).
Qed.

Section Invariant.
Context {host : Host}.
Variables (src col : string) (min_scale max_scale min_distance : Q).
Variable w1 : World.
Hypothesis w1_ok : world_ok w1.
Hypothesis w1_empty : data_collections w1 !! col = Some [].

Lemma scattering_init :
  scattering src col min_scale max_scale min_distance w1 (mkLocals [] 0 0) w1.
Proof.
  assert (Hi : instances w1 col = []).
  { unfold instances, members. by rewrite w1_empty. }
  split; simpl; rewrite ?Hi; try done.
  exists []. split; [by eapply extends_nil|by left].
Qed.

Lemma root_ok_frame w w' r :
  data_objects w' !! r = data_objects w !! r →
  root_ok min_scale max_scale w r → root_ok min_scale max_scale w' r.
Proof. intros He (o & k1 & k2 & Ho & H). exists o, k1, k2. by rewrite He. Qed.

Lemma scattering_step s w s' w' :
  scattering src col min_scale max_scale min_distance w1 s w →
  attempt src col min_scale max_scale min_distance s w s' w' →
  scattering src col min_scale max_scale min_distance w1 s' w'.
Proof.
  intros [(news & Hext & Hsrc) Hok Hcount Hroots Hpos Hsp] Hatt.
  destruct Hatt as [-> Hs | loc r rest Hpl Htr Hpp [Hext' Hpar Hroot Hrest]].
  { (* a rejected candidate changes nothing but the counters *)
    split; simpl; rewrite ?(instances_same_scene _ _ _ Hs); try done.
    - exists news. split; [|done].
      eapply extends_same_scene; [apply same_scene_refl|exact Hs|done].
    - by eapply world_ok_same_scene.
    - eapply Forall_impl; [exact Hroots|]. intros n.
      apply root_ok_frame. destruct Hs as (<- & _ & _). done.
    - intros Hmd. rewrite <- (Hpos Hmd). apply fmap_ext_elem. intros n _.
      unfold position. destruct Hs as (<- & _ & _). done. }
  destruct Hok as [Hpc Hmc].
  destruct Hpar as (osrc & o & Hosrc & Ho & Hpo & Hloc).
  assert (Hmem : members w col = news).
  { rewrite (members_extends _ _ _ _ Hext). unfold members.
    by rewrite w1_empty. }
  assert (Hmem' : members w' col = news ++ r :: rest).
  { by rewrite (members_extends _ _ _ _ Hext'), Hmem. }
  assert (Hall : extends col (news ++ r :: rest) w1 w')
    by by eapply extends_trans.
  assert (Hsrc1 : is_Some (data_objects w1 !! src)).
  { destruct Hsrc as [-> | ?]; [|done].
    rewrite <- (ext_frame _ _ _ _ Hext src) by apply not_elem_of_nil.
    eauto. }
  assert (Hold : ∀ n, is_Some (data_objects w !! n) →
            (n ∉ r :: rest) ∧ data_objects w' !! n = data_objects w !! n).
  { intros n. exact (extends_lookup_old _ _ _ _ n Hext'). }
  assert (Hnews : ∀ n, n ∈ news → is_Some (data_objects w !! n))
    by apply (ext_new _ _ _ _ Hext).
  (* the parent of the template is an object of the initial world *)
  assert (Hsrcpar : ∀ p, parent osrc = Some p → p ∉ news ++ r :: rest).
  { intros p Hp.
    destruct (extends_lookup_old _ _ _ _ src Hext Hsrc1) as [_ Hsame].
    rewrite Hosrc in Hsame. symmetry in Hsame.
    destruct (proj1 w1_ok src osrc p Hsame Hp) as [op Hop].
    intros Hin. rewrite (ext_fresh _ _ _ _ Hall p Hin) in Hop. discriminate. }
  assert (Hroots_old : ∀ n, n ∈ news → is_root w' col n = is_root w col n).
  { intros n Hn. unfold is_root.
    destruct (Hold n (Hnews n Hn)) as [_ ->].
    destruct (data_objects w !! n) as [on|] eqn:Hon; [|done].
    destruct (parent on) as [p|] eqn:Hp; [|done].
    destruct (Hold p (Hpc n on p Hon Hp)) as [Hp' _].
    rewrite Hmem, Hmem'. apply bool_decide_ext.
    rewrite elem_of_app. tauto. }
  assert (Hroot_r : is_root w' col r = true).
  { unfold is_root. rewrite Ho, Hpo.
    destruct (parent osrc) as [p|] eqn:Hp; [|done].
    apply bool_decide_eq_true. rewrite Hmem'. by apply Hsrcpar. }
  assert (Hroot_rest : ∀ n, n ∈ rest → is_root w' col n = false).
  { intros n Hn. unfold is_root.
    destruct (Hrest n Hn) as (on & p & -> & -> & Hp).
    apply bool_decide_eq_false. intros Hnp. apply Hnp.
    rewrite Hmem'. apply elem_of_app. by right. }
  assert (Hinst : instances w' col = instances w col ++ [r]).
  { unfold instances. rewrite Hmem', Hmem, filter_app. f_equal.
    - apply filter_ext_elem. intros n Hn. by rewrite Hroots_old.
    - rewrite filter_cons_True by by rewrite Hroot_r.
      f_equal. apply filter_none.
      intros n Hn Hr. rewrite Hroot_rest in Hr by done. done. }
  assert (Hinst_old : ∀ n, n ∈ instances w col →
            data_objects w' !! n = data_objects w !! n).
  { intros n Hn. apply Hold, Hnews. rewrite <- Hmem.
    unfold instances in Hn. by apply list_elem_of_filter in Hn as [_ ?]. }
  split.
  - exists (news ++ r :: rest). auto.
  - split.
    + intros n on p Hn Hp.
      destruct (decide (n ∈ r :: rest)) as [Hin|Hnin].
      * apply elem_of_cons in Hin as [->|Hin].
        -- rewrite Ho in Hn. injection Hn as <-. rewrite Hpo in Hp.
           destruct (Hpc src osrc p Hosrc Hp) as [op Hop].
           destruct (Hold p (mk_is_Some _ _ Hop)) as [_ ->]. eauto.
        -- destruct (Hrest n Hin) as (on' & p' & Hn' & Hp' & Hpin).
           rewrite Hn in Hn'. injection Hn' as <-.
           rewrite Hp in Hp'. injection Hp' as <-.
           by apply (ext_new _ _ _ _ Hext').
      * rewrite (ext_frame _ _ _ _ Hext') in Hn by done.
        destruct (Hold p (Hpc n on p Hn Hp)) as [_ ->]. by eapply Hpc.
    + exact (extends_members_closed _ _ _ _ Hext' Hmc).
  - rewrite Hinst, length_app, Hpl. simpl. lia.
  - rewrite Hinst. apply Forall_app. split; [|by repeat constructor].
    rewrite Forall_forall in Hroots |- *. intros n Hn.
    eapply root_ok_frame; [|by apply Hroots]. by apply Hinst_old.
  - intros Hmd. rewrite Hmd in Hpp. destruct Hpp as [_ ->].
    rewrite Hinst, !fmap_app, <- (Hpos Hmd). f_equal.
    + apply fmap_ext_elem. intros n Hn. unfold position.
      by rewrite Hinst_old.
    + simpl. unfold position. by rewrite Ho, <- Hloc.
  - destruct (Qltb 0 min_distance); [|by rewrite Hpp].
    destruct Hpp as [Hfar ->]. intros i j p q Hij Hp Hq.
    apply lookup_app_Some in Hq as [Hq | [Hlen Hq]].
    + apply (Hsp i j p q Hij); [|done].
      apply lookup_app_Some in Hp as [Hp | [Hlen _]]; [done|].
      apply lookup_lt_Some in Hq. lia.
    + apply list_lookup_singleton_Some in Hq as [Hj <-].
      apply lookup_app_Some in Hp as [Hp | [Hlen' _]]; [|lia].
      rewrite Forall_forall in Hfar. apply Hfar.
      by eapply list_elem_of_lookup_2.
Qed.

End Invariant.

(** * Termination *)

Lemma terminates_ret {A} (a : A) : terminates (ret a).
Proof. intros w. discriminate. Qed.

Lemma terminates_raise {A} e : terminates (@raise A e).
Proof. intros w. discriminate. Qed.

Lemma terminates_bind {A B} (m : M A) (k : A → M B) :
  terminates m → (∀ a, terminates (k a)) → terminates (bind m k).
Proof.
  intros Hm Hk w H. apply bind_Timeout in H as [H | (a & w1 & _ & H)].
  - by apply (Hm w).
  - by apply (Hk a w1).
Qed.

Lemma terminates_get_world : terminates get_world.
Proof. intros w. discriminate. Qed.

Lemma terminates_modify f : terminates (modify f).
Proof. intros w. discriminate. Qed.

Lemma terminates_deref ref : terminates (deref ref).
Proof. intros w. unfold deref. by destruct (data_objects w !! ref). Qed.

Lemma terminates_collection_objects col : terminates (collection_objects col).
Proof.
  intros w. unfold collection_objects. by destruct (data_collections w !! col).
Qed.

Lemma terminates_objects_get name : terminates (objects_get name).
Proof. intros w. discriminate. Qed.

Lemma terminates_collections_get name : terminates (collections_get name).
Proof. intros w. discriminate. Qed.

Create HintDb terminates.
#[export] Hint Resolve terminates_ret terminates_raise terminates_get_world
  terminates_modify terminates_deref terminates_collection_objects
  terminates_objects_get terminates_collections_get : terminates.

(** Walks through a computation built from binds, branches and the
    primitives of the hint base. *)
Ltac terminates_tac :=
  repeat first
    [ solve [auto with terminates]
    | apply terminates_bind; [|intros ?]
    | match goal with
      | |- terminates (match ?x with _ => _ end) => destruct x
      | |- terminates (if ?b then _ else _) => destruct b
      | |- terminates (let _ := _ in _) => cbv zeta
      end ].

Lemma terminates_update ref f : terminates (update ref f).
Proof. unfold update. terminates_tac. Qed.

Lemma terminates_Object_copy ref : terminates (Object_copy ref).
Proof. unfold Object_copy. terminates_tac. Qed.

Lemma terminates_Object_children ref : terminates (Object_children ref).
Proof. unfold Object_children. terminates_tac. Qed.

Lemma terminates_collection_link col obj : terminates (collection_link col obj).
Proof. unfold collection_link. terminates_tac. Qed.

Lemma terminates_objects_remove obj : terminates (objects_remove obj).
Proof. unfold objects_remove. terminates_tac. Qed.

Lemma terminates_for_each {A} (l : list A) (body : A → M unit) :
  (∀ x, terminates (body x)) → terminates (for_each l body).
Proof.
  intros Hb. induction l as [|x l IH]; simpl; [apply terminates_ret|].
  apply terminates_bind; auto.
Qed.

#[export] Hint Resolve terminates_update terminates_Object_copy
  terminates_Object_children terminates_collection_link
  terminates_objects_remove : terminates.

Lemma terminates_get_or_create_collection name :
  terminates (get_or_create_collection name).
Proof. unfold get_or_create_collection. terminates_tac. Qed.

Lemma terminates_clear_collection col : terminates (clear_collection col).
Proof.
  unfold clear_collection. destruct col; [|apply terminates_ret].
  apply terminates_bind; [auto with terminates|]. intros l.
  apply terminates_for_each. auto with terminates.
Qed.

Lemma terminates_vgroup_weight_at_face_avg terrain name fi :
  terminates (vgroup_weight_at_face_avg terrain name fi).
Proof. unfold vgroup_weight_at_face_avg. terminates_tac. Qed.

#[export] Hint Resolve terminates_get_or_create_collection
  terminates_clear_collection terminates_vgroup_weight_at_face_avg
  : terminates.

(** A loop whose body terminates and decreases a measure that is positive
    while the loop condition holds does not run out of a budget as large
    as the measure. *)
Lemma while_terminates {S} (mu : S → nat) cond (body : S → M S) :
  (∀ s, terminates (body s)) →
  (∀ s, cond s = true → (0 < mu s)%nat) →
  (∀ s w s' w', cond s = true → body s w = Return s' w' →
                (mu s' < mu s)%nat) →
  ∀ fuel s, (mu s ≤ fuel)%nat → terminates (while fuel cond body s).
Proof.
  intros Hbody Hpos Hdec fuel.
  induction fuel as [|fuel IH]; intros s Hmu w; simpl;
    destruct (cond s) eqn:Hc; try discriminate.
  - specialize (Hpos s Hc). lia.
  - intros H. apply bind_Timeout in H as [H | (s1 & w1 & Hb & H)].
    + by apply (Hbody s w).
    + apply (IH s1) in H; [done|]. specialize (Hdec _ _ _ _ Hc Hb). lia.
Qed.

Section Termination.
Context {host : Host}.

Lemma terminates_random_uniform a b : terminates (random_uniform a b).
Proof. intros w. discriminate. Qed.

Lemma terminates_raycast_to_terrain terrain x y z_start :
  terminates (raycast_to_terrain terrain x y z_start).
Proof. unfold raycast_to_terrain. terminates_tac. Qed.

Lemma terminates_copy_with_children depth : ∀ src_obj col,
  terminates (copy_with_children depth src_obj col).
Proof.
  induction depth as [|depth IH]; intros src_obj col; simpl;
    [apply terminates_raise|].
  terminates_tac. apply terminates_for_each. intros child.
  apply terminates_bind; [apply IH|]. intros new_child. terminates_tac.
Qed.

Hint Resolve terminates_random_uniform terminates_raycast_to_terrain
  terminates_copy_with_children : terminates.

Lemma terminates_Projekt_loop_body terrain src col area z_start min_scale
    max_scale use_vgroup path_threshold min_distance s :
  terminates (Projekt.loop_body terrain src col area z_start min_scale
                max_scale use_vgroup path_threshold min_distance s).
Proof. unfold Projekt.loop_body. terminates_tac. Qed.

Lemma terminates_Scripts_loop_body terrain src col area z_start min_scale
    max_scale path_threshold min_distance s :
  terminates (Scripts.loop_body terrain src col area z_start min_scale
                max_scale path_threshold min_distance s).
Proof.
  unfold Scripts.loop_body, Scripts.VGROUP_WEIGHT_FUNC. terminates_tac.
Qed.

End Termination.

(** * Runs of [scatter_on_terrain] *)

Section Runs.
Context {host : Host}.

(** A run of the project folder's script returns exactly when validation
    passes and the loop, started in the world that [prepare] leaves,
    returns. *)
Lemma Projekt_run sname cname count area z_start min_scale max_scale
    use_vgroup path_threshold min_distance w p t w' :
  Projekt.scatter_on_terrain sname cname count area z_start min_scale
    max_scale use_vgroup path_threshold min_distance w = Return (p, t) w' ↔
  ∃ ot w1 s,
    data_objects w !! terrain_name = Some ot ∧ type ot = "MESH" ∧
    is_Some (data_objects w !! sname) ∧ Qltb max_scale min_scale = false ∧
    prepare cname w = Return tt w1 ∧
    while (Z.to_nat (count * 40)) (Projekt.loop_cond count (count * 40))
      (Projekt.loop_body terrain_name sname cname area z_start min_scale
         max_scale use_vgroup path_threshold min_distance)
      (mkLocals [] 0 0) w1 = Return s w' ∧
    p = placed s ∧ t = tries s.
Proof.
  unfold Projekt.scatter_on_terrain, prepare, objects_get.
  unfold bind at 1 2. unfold bind at 4.
  destruct (data_objects w !! terrain_name) as [ot|] eqn:Hter.
  2:{ split; [discriminate|]. intros (? & ? & ? & ? & _). discriminate. }
  unfold bind at 1, deref at 1. rewrite Hter.
  destruct (String.eqb (type ot) "MESH") eqn:Hty; simpl.
  2:{ split; [discriminate|]. intros (? & ? & ? & [= <-] & Hm & _).
      rewrite Hm in Hty. discriminate. }
  apply String.eqb_eq in Hty.
  destruct (data_objects w !! sname) as [os|] eqn:Hsrc.
  2:{ split; [discriminate|]. intros (? & ? & ? & _ & _ & [? ?] & _).
      discriminate. }
  destruct (Qltb max_scale min_scale) eqn:Hsc.
  { split; [discriminate|]. intros (? & ? & ? & _ & _ & _ & ? & _).
    discriminate. }
  split.
  - intros H. apply bind_Return in H as (c & wa & Hg & H).
    assert (c = cname) as ->
      by by apply get_or_create_collection_Return in Hg as (-> & _).
    apply bind_Return in H as ([] & w1 & Hc & H).
    apply bind_Return in H as (s & w2 & Hw & H).
    apply ret_Return in H as [[= <- <-] <-].
    exists ot, w1, s. repeat split; eauto.
    apply bind_Return. eauto.
  - intros (ot' & w1 & s & _ & _ & _ & _ & Hprep & Hw & -> & ->).
    apply bind_Return in Hprep as (c & wa & Hg & Hc).
    assert (c = cname) as ->
      by by apply get_or_create_collection_Return in Hg as (-> & _).
    apply bind_Return. exists cname, wa. split; [done|].
    apply bind_Return. exists tt, w1. split; [done|].
    apply bind_Return. exists s, w'. split; [done|]. done.
Qed.

Lemma Scripts_run sname cname count area z_start min_scale max_scale
    path_threshold min_distance w p t w' :
  Scripts.scatter_on_terrain sname cname count area z_start min_scale
    max_scale path_threshold min_distance w = Return (p, t) w' ↔
  ∃ w1 s,
    is_Some (data_objects w !! terrain_name) ∧
    is_Some (data_objects w !! sname) ∧ Qltb max_scale min_scale = false ∧
    prepare cname w = Return tt w1 ∧
    while (Z.to_nat (count * 40)) (Scripts.loop_cond count (count * 40))
      (Scripts.loop_body terrain_name sname cname area z_start min_scale
         max_scale path_threshold min_distance)
      (mkLocals [] 0 0) w1 = Return s w' ∧
    p = placed s ∧ t = tries s.
Proof.
  unfold Scripts.scatter_on_terrain, prepare, objects_get.
  unfold bind at 1 2.
  destruct (data_objects w !! terrain_name) as [ot|] eqn:Hter.
  2:{ split; [discriminate|]. intros (? & ? & [? ?] & _). discriminate. }
  destruct (data_objects w !! sname) as [os|] eqn:Hsrc.
  2:{ split; [discriminate|]. intros (? & ? & _ & [? ?] & _). discriminate. }
  destruct (Qltb max_scale min_scale) eqn:Hsc.
  { split; [discriminate|]. intros (? & ? & _ & _ & ? & _). discriminate. }
  split.
  - intros H. apply bind_Return in H as (c & wa & Hg & H).
    assert (c = cname) as ->
      by by apply get_or_create_collection_Return in Hg as (-> & _).
    apply bind_Return in H as ([] & w1 & Hc & H).
    apply bind_Return in H as (s & w2 & Hw & H).
    apply ret_Return in H as [[= <- <-] <-].
    exists w1, s. repeat split; eauto.
    apply bind_Return. eauto.
  - intros (w1 & s & _ & _ & _ & Hprep & Hw & -> & ->).
    apply bind_Return in Hprep as (c & wa & Hg & Hc).
    assert (c = cname) as ->
      by by apply get_or_create_collection_Return in Hg as (-> & _).
    apply bind_Return. exists cname, wa. split; [done|].
    apply bind_Return. exists tt, w1. split; [done|].
    apply bind_Return. exists s, w'. split; [done|]. done.
Qed.

(** The invariant holds when the loop of either script returns. *)
Lemma loop_scattering (body : Locals → M Locals) cond fuel sname cname
    min_scale max_scale min_distance w w1 s w' :
  (∀ s0 w0 s0' w0', body s0 w0 = Return s0' w0' →
     attempt sname cname min_scale max_scale min_distance s0 w0 s0' w0') →
  world_ok w → prepare cname w = Return tt w1 →
  while fuel cond body (mkLocals [] 0 0) w1 = Return s w' →
  scattering sname cname min_scale max_scale min_distance w1 s w'.
Proof.
  intros Hbody Hok Hprep Hloop.
  apply prepare_Return in Hprep as (Hok1 & Hempty & _); [|done].
  eapply (while_inv
    (scattering sname cname min_scale max_scale min_distance w1));
    [| |exact Hloop].
  - intros s0 w0 s0' w0' _ Hinv Hb.
    apply (scattering_step sname cname min_scale max_scale min_distance w1
             Hok1 Hempty s0 w0); [done|]. by apply Hbody.
  - by apply scattering_init.
Qed.

End Runs.

(** * The attempt budget *)

Lemma bind_Raise {A B} (m : M A) (k : A → M B) w e w' :
  bind m k w = Raise e w' ↔
  m w = Raise e w' ∨ ∃ a w1, m w = Return a w1 ∧ k a w1 = Raise e w'.
Proof.
  unfold bind. split.
  - destruct (m w) as [a w1|e1 w1|] eqn:E; try discriminate; eauto.
    intros [= -> ->]. by left.
  - intros [-> | (a & w1 & -> & H)]; auto.
Qed.

Lemma while_Raise {S} cond (body : S → M S) fuel : ∀ s w e w',
  while fuel cond body s w = Raise e w' →
  ∃ s0 w0, cond s0 = true ∧ body s0 w0 = Raise e w'.
Proof.
  induction fuel as [|fuel IH]; intros s w e w' H; simpl in H;
    destruct (cond s) eqn:Hc; try discriminate.
  apply bind_Raise in H as [H | (s1 & w1 & _ & H)]; eauto.
Qed.

Lemma attempt_counts src col min_scale max_scale min_distance s w s' w'
    `{host : Host} :
  attempt src col min_scale max_scale min_distance s w s' w' →
  tries s' = tries s + 1 ∧
  (placed s' = placed s ∨ placed s' = placed s + 1).
Proof. intros [-> _ | loc r rest Hp Ht _ _]; simpl; auto. Qed.

Section Budget.
Context {host : Host}.
Variables (src col : string) (min_scale max_scale min_distance : Q).
Variable body : Locals → M Locals.
Variable count : Z.
Hypothesis body_attempt : ∀ s w s' w', body s w = Return s' w' →
  attempt src col min_scale max_scale min_distance s w s' w'.
Hypothesis body_terminates : ∀ s, terminates (body s).

Let cond (s : Locals) : bool := (placed s <? count) && (tries s <? count * 40).

Lemma loop_counts fuel s w' :
  0 <= count →
  ∀ w, while fuel cond body (mkLocals [] 0 0) w = Return s w' →
  within_budget count (placed s, tries s).
Proof.
  intros Hcount w H.
  apply (while_inv (λ s0 (_ : World),
           0 <= placed s0 ∧ placed s0 <= tries s0 ∧
           tries s0 <= count * 40 ∧ placed s0 <= count)) in H.
  - destruct H as [(H0 & H1 & H2 & H3) Hc]. unfold cond in Hc.
    apply andb_false_iff in Hc. unfold within_budget.
    repeat split; lia.
  - intros s0 w0 s0' w0' Hc (H0 & H1 & H2 & H3) Hb. unfold cond in Hc.
    apply andb_true_iff in Hc as [Hc1 Hc2].
    apply body_attempt, attempt_counts in Hb as [Ht Hp]. lia.
  - simpl. lia.
Qed.

Lemma loop_terminates s :
  0 <= tries s →
  terminates (while (Z.to_nat (count * 40)) cond body s).
Proof.
  intros Hs.
  apply (while_terminates (λ s0, Z.to_nat (count * 40 - tries s0))).
  - exact body_terminates.
  - intros s0 Hc. unfold cond in Hc. apply andb_true_iff in Hc as [_ Hc]. lia.
  - intros s0 w0 s0' w0' Hc Hb. unfold cond in Hc.
    apply andb_true_iff in Hc as [_ Hc].
    apply body_attempt, attempt_counts in Hb as [Ht _]. lia.
  - lia.
Qed.

End Budget.

Section RunOutcomes.
Context {host : Host}.

Lemma objects_get_Return name w r w' :
  objects_get name w = Return r w' ↔
  w' = w ∧ r = (if data_objects w !! name is Some _ then Some name else None).
Proof.
  unfold objects_get. split; [intros [= <- <-] | intros [-> ->]]; done.
Qed.

Lemma objects_get_Raise name w e w' : objects_get name w ≠ Raise e w'.
Proof. discriminate. Qed.

Lemma raise_Raise {A} e0 w e w' :
  @raise A e0 w = Raise e w' ↔ e = e0 ∧ w' = w.
Proof. unfold raise. split; [intros [= <- <-] | intros [-> ->]]; done. Qed.

Lemma ret_Raise {A} (a : A) w e w' : ret a w ≠ Raise e w'.
Proof. discriminate. Qed.

Lemma Projekt_run_Raise sname cname count area z_start min_scale max_scale
    use_vgroup path_threshold min_distance w e w' :
  Projekt.scatter_on_terrain sname cname count area z_start min_scale
    max_scale use_vgroup path_threshold min_distance w = Raise e w' →
  (w' = w ∧ ∃ msg, e = RuntimeError msg) ∨
  prepare cname w = Raise e w' ∨
  ∃ s0 w0, Projekt.loop_cond count (count * 40) s0 = true ∧
    Projekt.loop_body terrain_name sname cname area z_start min_scale
      max_scale use_vgroup path_threshold min_distance s0 w0 = Raise e w'.
Proof.
  unfold Projekt.scatter_on_terrain. intros H.
  apply bind_Raise in H as [H | (ter & w1 & Hg & H)];
    [by apply objects_get_Raise in H|].
  apply objects_get_Return in Hg as [-> ->].
  apply bind_Raise in H as [H | (so & w1 & Hg & H)];
    [by apply objects_get_Raise in H|].
  apply objects_get_Return in Hg as [-> ->].
  destruct (data_objects w !! terrain_name) as [ot|] eqn:Hter.
  2:{ apply raise_Raise in H as [-> ->]. left. eauto. }
  apply bind_Raise in H as [H | (t & w1 & Hd & H)].
  { unfold deref in H. rewrite Hter in H. discriminate. }
  apply deref_Return in Hd as [-> _].
  destruct (negb _).
  { apply raise_Raise in H as [-> ->]. left. eauto. }
  destruct (data_objects w !! sname).
  2:{ apply raise_Raise in H as [-> ->]. left. eauto. }
  destruct (Qltb max_scale min_scale).
  { apply raise_Raise in H as [-> ->]. left. eauto. }
  right. unfold prepare.
  apply bind_Raise in H as [H | (c & wa & Hg & H)].
  { left. apply bind_Raise. by left. }
  assert (c = cname) as ->
    by by apply get_or_create_collection_Return in Hg as (-> & _).
  apply bind_Raise in H as [H | ([] & wb & Hc & H)].
  { left. apply bind_Raise. right. eauto. }
  right. apply bind_Raise in H as [H | (s & wc & _ & H)].
  - by apply while_Raise in H.
  - by apply ret_Raise in H.
Qed.

Lemma Scripts_run_Raise sname cname count area z_start min_scale max_scale
    path_threshold min_distance w e w' :
  Scripts.scatter_on_terrain sname cname count area z_start min_scale
    max_scale path_threshold min_distance w = Raise e w' →
  (w' = w ∧ ∃ msg, e = RuntimeError msg) ∨
  prepare cname w = Raise e w' ∨
  ∃ s0 w0, Scripts.loop_cond count (count * 40) s0 = true ∧
    Scripts.loop_body terrain_name sname cname area z_start min_scale
      max_scale path_threshold min_distance s0 w0 = Raise e w'.
Proof.
  unfold Scripts.scatter_on_terrain. intros H.
  apply bind_Raise in H as [H | (ter & w1 & Hg & H)];
    [by apply objects_get_Raise in H|].
  apply objects_get_Return in Hg as [-> ->].
  apply bind_Raise in H as [H | (so & w1 & Hg & H)];
    [by apply objects_get_Raise in H|].
  apply objects_get_Return in Hg as [-> ->].
  destruct (data_objects w !! terrain_name) as [ot|] eqn:Hter.
  2:{ apply raise_Raise in H as [-> ->]. left. eauto. }
  destruct (data_objects w !! sname).
  2:{ apply raise_Raise in H as [-> ->]. left. eauto. }
  destruct (Qltb max_scale min_scale).
  { apply raise_Raise in H as [-> ->]. left. eauto. }
  right. unfold prepare.
  apply bind_Raise in H as [H | (c & wa & Hg & H)].
  { left. apply bind_Raise. by left. }
  assert (c = cname) as ->
    by by apply get_or_create_collection_Return in Hg as (-> & _).
  apply bind_Raise in H as [H | ([] & wb & Hc & H)].
  { left. apply bind_Raise. right. eauto. }
  right. apply bind_Raise in H as [H | (s & wc & _ & H)].
  - by apply while_Raise in H.
  - by apply ret_Raise in H.
Qed.

Lemma terminates_Projekt_scatter sname cname count area z_start min_scale
    max_scale use_vgroup path_threshold min_distance :
  terminates (Projekt.scatter_on_terrain sname cname count area z_start
                min_scale max_scale use_vgroup path_threshold min_distance).
Proof.
  unfold Projekt.scatter_on_terrain. terminates_tac.
  eapply (loop_terminates _ _ min_scale max_scale min_distance).
  - intros ? ? ? ?. apply Projekt_loop_body_attempt.
  - intros ?. apply terminates_Projekt_loop_body.
  - simpl. lia.
Qed.

Lemma terminates_Scripts_scatter sname cname count area z_start min_scale
    max_scale path_threshold min_distance :
  terminates (Scripts.scatter_on_terrain sname cname count area z_start
                min_scale max_scale path_threshold min_distance).
Proof.
  unfold Scripts.scatter_on_terrain. terminates_tac.
  eapply (loop_terminates _ _ min_scale max_scale min_distance).
  - intros ? ? ? ?. apply Scripts_loop_body_attempt.
  - intros ?. apply terminates_Scripts_loop_body.
  - simpl. lia.
Qed.

(** C6: a run of [scatter_on_terrain] (either script) asked for
    [count >= 0] instances returns [(placed, tries)] with
    [placed <= count], [placed <= tries <= count * 40] and, at
    termination, [placed = count] or [tries = count * 40]; the loop never
    outlasts its budget, and an exception can only come from validation,
    from preparing the target or from the body of an attempt the loop
    condition admitted: exhausting the budget is a partial result. *)
Theorem C6_attempt_budget sname cname count area z_start min_scale max_scale
    use_vgroup path_threshold min_distance w :
  0 <= count →
  run_outcome_ok count (Projekt.loop_cond count (count * 40))
    (Projekt.loop_body terrain_name sname cname area z_start min_scale
       max_scale use_vgroup path_threshold min_distance) cname w
    (Projekt.scatter_on_terrain sname cname count area z_start min_scale
       max_scale use_vgroup path_threshold min_distance w) ∧
  run_outcome_ok count (Scripts.loop_cond count (count * 40))
    (Scripts.loop_body terrain_name sname cname area z_start min_scale
       max_scale path_threshold min_distance) cname w
    (Scripts.scatter_on_terrain sname cname count area z_start min_scale
       max_scale path_threshold min_distance w).
Proof.
  intros Hcount. split.
  - destruct (Projekt.scatter_on_terrain _ _ _ _ _ _ _ _ _ _ w)
      as [[p t] w'|e w'|] eqn:E; simpl.
    + apply Projekt_run in E as (ot & w1 & s & _ & _ & _ & _ & _ & Hw & -> & ->).
      eapply (loop_counts sname cname min_scale max_scale min_distance);
        [|done|exact Hw].
      intros s0 w0 s0' w0'. apply Projekt_loop_body_attempt.
    + by apply Projekt_run_Raise in E.
    + by apply terminates_Projekt_scatter in E.
  - destruct (Scripts.scatter_on_terrain _ _ _ _ _ _ _ _ _ w)
      as [[p t] w'|e w'|] eqn:E; simpl.
    + apply Scripts_run in E as (w1 & s & _ & _ & _ & _ & Hw & -> & ->).
      eapply (loop_counts sname cname min_scale max_scale min_distance);
        [|done|exact Hw].
      intros s0 w0 s0' w0'. apply Scripts_loop_body_attempt.
    + by apply Scripts_run_Raise in E.
    + by apply terminates_Scripts_scatter in E.
Qed.

End RunOutcomes.

(** * Weights *)

Lemma fold_left_Qplus_acc l a : (fold_left Qplus l a == a + sum l)%Q.
Proof.
  unfold sum. revert a. induction l as [|x l IH]; intros a; simpl.
  - ring.
  - rewrite IH, (IH (0 + x)%Q). ring.
Qed.

Lemma sum_cons x l : (sum (x :: l) == x + sum l)%Q.
Proof. unfold sum at 1. simpl. rewrite fold_left_Qplus_acc. ring. Qed.

(** Summing the per-vertex weights, zeros included, is summing the weights
    of the assigned vertices. *)
Lemma sum_face_weights vg poly :
  (sum (face_weights vg poly) == sum (omap (λ vid, vg !! vid) poly))%Q.
Proof.
  induction poly as [|vid poly IH]; simpl; [reflexivity|].
  rewrite sum_cons, IH. unfold vertex_weight.
  destruct (vg !! vid) as [x|]; simpl.
  - by rewrite sum_cons.
  - by rewrite Qplus_0_l.
Qed.

(** C10: a vertex of the face that is not assigned to the vertex group
    yields weight [0] (its failed lookup does not abort the evaluation),
    and the mean divides the sum of the assigned vertices' weights by the
    number of all the vertices of the face. *)
Theorem C10_unassigned_vertex_counts_as_zero terrain name fi w t vg me poly :
  data_objects w !! terrain = Some t →
  vertex_groups t !! name = Some vg →
  data t = Some me →
  py_index (polygons me) fi = Some poly →
  poly ≠ [] →
  (∀ vid, vg !! vid = None → vertex_weight vg vid = 0%Q) ∧
  length (face_weights vg poly) = length poly ∧
  ∃ q, vgroup_weight_at_face_avg terrain name fi w = Return q w ∧
       (q == sum (omap (λ vid, vg !! vid) poly)
             / inject_Z (Z.of_nat (length poly)))%Q.
Proof.
  intros Ht Hvg Hme Hpoly Hne. split; [|split].
  - intros vid Hv. unfold vertex_weight. by rewrite Hv.
  - unfold face_weights. apply length_map.
  - unfold vgroup_weight_at_face_avg, bind, deref.
    rewrite Ht, Hvg, Hme, Hpoly.
    eexists. split; [reflexivity|].
    destruct (face_weights vg poly) as [|x l] eqn:E.
    { destruct poly; [done|discriminate]. }
    rewrite <- E, sum_face_weights. unfold face_weights.
    by rewrite length_map.
Qed.

(** * The tests of one attempt *)

Section Decisions.
Context {host : Host}.

Lemma bind_random_uniform {B} a b (k : Q → M B) w :
  bind (random_uniform a b) k w
  = k (a + (b - a) * random_stream (random_pos w))%Q (draw w).
Proof. reflexivity. Qed.

Lemma bind_Return_eq {A B} (m : M A) (k : A → M B) w a w1 :
  m w = Return a w1 → bind m k w = k a w1.
Proof. unfold bind. by intros ->. Qed.

Lemma bind_ext_Return {A B} (m : M A) (k1 k2 : A → M B) w :
  (∀ a w1, m w = Return a w1 → k1 a w1 = k2 a w1) →
  bind m k1 w = bind m k2 w.
Proof. unfold bind. intros H. destruct (m w); auto. Qed.

Lemma too_close_false md loc pp :
  too_close md loc pp = false ↔
  Qltb 0 md = false ∨
  any (fun p => length_ltb (vec_sub loc p) md) pp = false.
Proof. unfold too_close. apply andb_false_iff. Qed.

(** The ways through the body of the project folder's loop, for the
    attempts that return. *)
Lemma Projekt_loop_body_cases terrain src col area z_start min_scale
    max_scale use_vgroup path_threshold min_distance s w s' w' :
  Projekt.loop_body terrain src col area z_start min_scale max_scale
    use_vgroup path_threshold min_distance s w = Return s' w' →
  let '(x, y, w2) := candidate area w in
  let continue := mkLocals (placed_positions s) (placed s) (tries s + 1) in
  (raycast_to_terrain terrain x y z_start w2 = Return None w2 ∧
   s' = continue ∧ w' = w2) ∨
  ∃ loc fi,
    raycast_to_terrain terrain x y z_start w2 = Return (Some (loc, fi)) w2 ∧
    ((use_vgroup = true ∧
      ∃ wt, vgroup_weight_at_face_avg terrain no_trees_vgroup fi w2
              = Return wt w2 ∧
            Qltb path_threshold wt = true ∧ s' = continue ∧ w' = w2) ∨
     ((use_vgroup = true →
       ∃ wt, vgroup_weight_at_face_avg terrain no_trees_vgroup fi w2
               = Return wt w2 ∧ Qltb path_threshold wt = false) ∧
      ((too_close min_distance loc (placed_positions s) = true ∧
        s' = continue ∧ w' = w2) ∨
       (too_close min_distance loc (placed_positions s) = false ∧
        placed s' = placed s + 1)))).
Proof.
  unfold Projekt.loop_body, candidate. rewrite !bind_random_uniform.
  intros H. apply bind_Return in H as (r & w3 & Hray & H).
  pose proof (raycast_to_terrain_Return _ _ _ _ _ _ _ Hray) as [-> _].
  destruct r as [[loc fi]|].
  2:{ apply ret_Return in H as [<- <-]. by left. }
  right. exists loc, fi. split; [exact Hray|].
  apply bind_Return in H as (reject & w3 & Hrej & H).
  assert (w3 = draw (draw w) ∧
          (use_vgroup = true →
           ∃ wt, vgroup_weight_at_face_avg terrain no_trees_vgroup fi
                   (draw (draw w)) = Return wt (draw (draw w)) ∧
                 Qltb path_threshold wt = reject) ∧
          (use_vgroup = false → reject = false)) as (-> & Hw & Hnw).
  { destruct use_vgroup.
    - apply bind_Return in Hrej as (q & w4 & Hq & Hrej).
      pose proof (vgroup_weight_at_face_avg_Return _ _ _ _ _ _ Hq) as ->.
      apply ret_Return in Hrej as [<- <-]. split; [done|]. split; [|done].
      intros _. by exists q.
    - apply ret_Return in Hrej as [<- <-]. by repeat split. }
  destruct reject.
  { apply ret_Return in H as [<- <-]. left.
    destruct use_vgroup; [|by specialize (Hnw eq_refl)].
    split; [done|]. destruct (Hw eq_refl) as (wt & ? & ?). by exists wt. }
  right. split; [exact Hw|]. unfold too_close.
  destruct (Qltb 0 min_distance) eqn:Hmd; simpl.
  - destruct (any _ _) eqn:Hany.
    { apply ret_Return in H as [<- <-]. by left. }
    right. split; [done|].
    by apply Projekt_place_placed_at in H as (-> & _).
  - right. split; [done|].
    by apply Projekt_place_placed_at in H as (-> & _).
Qed.

Lemma Scripts_loop_body_cases terrain src col area z_start min_scale
    max_scale path_threshold min_distance s w s' w' :
  Scripts.loop_body terrain src col area z_start min_scale max_scale
    path_threshold min_distance s w = Return s' w' →
  let '(x, y, w2) := candidate area w in
  let continue := mkLocals (placed_positions s) (placed s) (tries s + 1) in
  (raycast_to_terrain terrain x y z_start w2 = Return None w2 ∧
   s' = continue ∧ w' = w2) ∨
  ∃ loc fi wt,
    raycast_to_terrain terrain x y z_start w2 = Return (Some (loc, fi)) w2 ∧
    vgroup_weight_at_face_avg terrain no_trees_vgroup fi w2 = Return wt w2 ∧
    ((Qltb path_threshold wt = true ∧ s' = continue ∧ w' = w2) ∨
     (Qltb path_threshold wt = false ∧
      ((too_close min_distance loc (placed_positions s) = true ∧
        s' = continue ∧ w' = w2) ∨
       (too_close min_distance loc (placed_positions s) = false ∧
        placed s' = placed s + 1)))).
Proof.
  unfold Scripts.loop_body, Scripts.VGROUP_WEIGHT_FUNC, candidate.
  rewrite !bind_random_uniform.
  intros H. apply bind_Return in H as (r & w3 & Hray & H).
  pose proof (raycast_to_terrain_Return _ _ _ _ _ _ _ Hray) as [-> _].
  destruct r as [[loc fi]|].
  2:{ apply ret_Return in H as [<- <-]. by left. }
  right. apply bind_Return in H as (wt & w3 & Hq & H).
  pose proof (vgroup_weight_at_face_avg_Return _ _ _ _ _ _ Hq) as ->.
  exists loc, fi, wt. split; [exact Hray|]. split; [exact Hq|].
  destruct (Qltb path_threshold wt).
  { apply ret_Return in H as [<- <-]. by left. }
  right. split; [done|]. unfold too_close.
  destruct (Qltb 0 min_distance) eqn:Hmd; simpl.
  - destruct (any _ _) eqn:Hany.
    { apply ret_Return in H as [<- <-]. by left. }
    right. split; [done|].
    by apply Scripts_place_placed_at in H as (-> & _).
  - right. split; [done|].
    by apply Scripts_place_placed_at in H as (-> & _).
Qed.

Lemma Qltb_false a b : Qltb a b = false ↔ (b <= a)%Q.
Proof.
  unfold Qltb. rewrite negb_false_iff. apply Qle_bool_iff.
Qed.

Lemma Qltb_true a b : Qltb a b = true ↔ (a < b)%Q.
Proof.
  unfold Qltb. rewrite negb_true_iff. split.
  - intros H. apply Qnot_le_lt. intros Hle.
    apply Qle_bool_iff in Hle. congruence.
  - intros H. destruct (Qle_bool b a) eqn:E; [|done].
    apply Qle_bool_iff in E. by apply Qle_not_lt in E.
Qed.

(** C7: in a run that applies the weight filter (the project folder's
    script with [use_vgroup], the script under [scripts/] always), an
    attempt that accepts its candidate has found the weight of the hit
    face at most [path_threshold]; and a candidate whose weight exceeds
    [path_threshold] is rejected: the attempt returns with the counters of
    a [continue] and an unchanged data base. *)
Theorem C7_weight_filter terrain src col area z_start min_scale max_scale
    path_threshold min_distance s w :
  (accepts_below terrain area z_start path_threshold
     (Projekt.loop_body terrain src col area z_start min_scale max_scale
        true path_threshold min_distance) s w ∧
   rejects_above terrain area z_start path_threshold
     (Projekt.loop_body terrain src col area z_start min_scale max_scale
        true path_threshold min_distance) s w) ∧
  (accepts_below terrain area z_start path_threshold
     (Scripts.loop_body terrain src col area z_start min_scale max_scale
        path_threshold min_distance) s w ∧
   rejects_above terrain area z_start path_threshold
     (Scripts.loop_body terrain src col area z_start min_scale max_scale
        path_threshold min_distance) s w).
Proof.
  pose proof (Projekt_loop_body_cases terrain src col area z_start min_scale
                max_scale true path_threshold min_distance s w) as HP.
  pose proof (Scripts_loop_body_cases terrain src col area z_start min_scale
                max_scale path_threshold min_distance s w) as HS.
  unfold accepts_below, rejects_above, candidate in *. split; split.
  - intros s' w' Hb Hacc.
    destruct (HP s' w' Hb) as [(_ & -> & _) | (loc & fi & Hray & Hc)];
      [done|].
    destruct Hc as [(_ & wt & _ & _ & -> & _) | (Hw & Hc)]; [done|].
    destruct (Hw eq_refl) as (wt & Hwt & Hle).
    exists loc, fi, wt. by rewrite Qltb_false in Hle.
  - intros loc fi wt Hray Hwt Hlt. apply Qltb_true in Hlt.
    unfold Projekt.loop_body. rewrite !bind_random_uniform.
    rewrite (bind_Return_eq _ _ _ _ _ Hray).
    rewrite (bind_Return_eq _ _ _ (Qltb path_threshold wt) (draw (draw w))).
    + by rewrite Hlt.
    + by rewrite (bind_Return_eq _ _ _ _ _ Hwt).
  - intros s' w' Hb Hacc.
    destruct (HS s' w' Hb)
      as [(_ & -> & _) | (loc & fi & wt & Hray & Hwt & Hc)]; [done|].
    destruct Hc as [(_ & -> & _) | (Hle & Hc)]; [done|].
    exists loc, fi, wt. by rewrite Qltb_false in Hle.
  - intros loc fi wt Hray Hwt Hlt. apply Qltb_true in Hlt.
    unfold Scripts.loop_body, Scripts.VGROUP_WEIGHT_FUNC.
    rewrite !bind_random_uniform.
    rewrite (bind_Return_eq _ _ _ _ _ Hray).
    rewrite (bind_Return_eq _ _ _ _ _ Hwt). by rewrite Hlt.
Qed.

Lemma vgroup_weight_at_face_avg_missing terrain name fi w t :
  data_objects w !! terrain = Some t → vertex_groups t !! name = None →
  vgroup_weight_at_face_avg terrain name fi w = Return 0%Q w.
Proof.
  intros Ht Hvg. unfold vgroup_weight_at_face_avg, bind, deref.
  by rewrite Ht, Hvg.
Qed.

(** C8: on a terrain without the named vertex group the weight of every
    face evaluates to [0] (the evaluation returns, it does not fail); with
    the forbidden-zone group absent and [path_threshold >= 0] the filter
    rejects no candidate: the project folder's loop body with the filter
    switched on does what it does with the filter switched off, and in
    both scripts an attempt rejects only a candidate that missed the
    terrain or is too close to a placed one. *)
Theorem C8_missing_field_rejects_nothing terrain src col area z_start
    min_scale max_scale path_threshold min_distance s w t :
  data_objects w !! terrain = Some t →
  vertex_groups t !! no_trees_vgroup = None →
  (0 <= path_threshold)%Q →
  (∀ name fi, vertex_groups t !! name = None →
     vgroup_weight_at_face_avg terrain name fi w = Return 0%Q w) ∧
  Projekt.loop_body terrain src col area z_start min_scale max_scale
    true path_threshold min_distance s w
  = Projekt.loop_body terrain src col area z_start min_scale max_scale
      false path_threshold min_distance s w ∧
  rejects_only_unplaceable terrain area z_start min_distance
    (Projekt.loop_body terrain src col area z_start min_scale max_scale
       true path_threshold min_distance) s w ∧
  rejects_only_unplaceable terrain area z_start min_distance
    (Scripts.loop_body terrain src col area z_start min_scale max_scale
       path_threshold min_distance) s w.
Proof.
  intros Ht Hvg Hthr.
  assert (Hzero : ∀ fi, vgroup_weight_at_face_avg terrain no_trees_vgroup fi
                          (draw (draw w)) = Return 0%Q (draw (draw w))).
  { intros fi. by apply (vgroup_weight_at_face_avg_missing _ _ _ _ t). }
  assert (Hpass : Qltb path_threshold 0 = false) by by apply Qltb_false.
  split; [|split; [|split]].
  - intros name fi Hn. by apply (vgroup_weight_at_face_avg_missing _ _ _ _ t).
  - unfold Projekt.loop_body. rewrite !bind_random_uniform.
    apply bind_ext_Return. intros [[loc fi]|] w3 Hray; [|done].
    pose proof (raycast_to_terrain_Return _ _ _ _ _ _ _ Hray) as [-> _].
    rewrite (bind_Return_eq _ _ _ false (draw (draw w))); [done|].
    by rewrite (bind_Return_eq _ _ _ _ _ (Hzero fi)), Hpass.
  - unfold rejects_only_unplaceable.
    pose proof (Projekt_loop_body_cases terrain src col area z_start
                  min_scale max_scale true path_threshold min_distance s w)
      as HP.
    unfold candidate in *. intros s' w' Hb Hrej.
    destruct (HP s' w' Hb) as [(Hray & _) | (loc & fi & Hray & Hc)];
      [by left|].
    right. exists loc, fi. split; [done|].
    destruct Hc as [(_ & wt & Hwt & Hlt & _) | (_ & [(? & _) | (_ & Hacc)])].
    + rewrite Hzero in Hwt. injection Hwt as <-. congruence.
    + done.
    + lia.
  - unfold rejects_only_unplaceable.
    pose proof (Scripts_loop_body_cases terrain src col area z_start
                  min_scale max_scale path_threshold min_distance s w) as HS.
    unfold candidate in *. intros s' w' Hb Hrej.
    destruct (HS s' w' Hb)
      as [(Hray & _) | (loc & fi & wt & Hray & Hwt & Hc)]; [by left|].
    right. exists loc, fi. split; [done|].
    rewrite Hzero in Hwt. injection Hwt as <-.
    destruct Hc as [(Hlt & _) | (_ & [(? & _) | (_ & Hacc)])].
    + congruence.
    + done.
    + lia.
Qed.

End Decisions.

(** * The surface query *)

Section SurfaceQuery.
Context {host : Host}.

(** C2 (amended): the surface query at [(x, y, z_start)] returns a hit
    exactly when the host's ray cast, on the data base as it is at the
    time of the query, reports the designated terrain as the object the
    straight-down ray meets first; it then returns the reported point and
    face.  Whatever else the ray meets first makes the query a miss. *)
Theorem C2_hit_iff_nearest_is_terrain terrain x y z_start w :
  let r := ray_cast w (x, y, z_start) (0, 0, - (1))%Q in
  (∀ loc fi w',
     raycast_to_terrain terrain x y z_start w = Return (Some (loc, fi)) w' ↔
     w' = w ∧ is_Some (data_objects w !! terrain) ∧ hit r = true ∧
     hit_obj r = Some terrain ∧ loc = hit_location r ∧
     fi = hit_face_index r) ∧
  (is_Some (data_objects w !! terrain) →
   ¬ (hit r = true ∧ hit_obj r = Some terrain) →
   raycast_to_terrain terrain x y z_start w = Return None w).
Proof.
  intros r. split.
  - intros loc fi w'. split.
    + intros H.
      apply raycast_to_terrain_Return in H as [-> [H | (? & ? & ? & H)]];
        [discriminate|].
      injection H as -> ->. by repeat split.
    + intros (-> & [ot Hot] & Hhit & Hobj & -> & ->).
      unfold raycast_to_terrain, bind, get_world, deref. fold r.
      rewrite Hhit, Hobj, Hot, String.eqb_refl. done.
  - intros [ot Hot] Hno.
    unfold raycast_to_terrain, bind, get_world, deref. fold r.
    destruct (hit r); [|done].
    destruct (hit_obj r) as [h|]; [|done].
    rewrite Hot. destruct (String.eqb h terrain) eqn:He; [|done].
    apply String.eqb_eq in He as ->. by destruct Hno.
Qed.

End SurfaceQuery.

(** C2: the claim as stated fails.  In the scene of boxes the first
    attempt places an instance at the centre of the plane; before it the
    query above the centre resolves to the plane, after it the same query
    meets the instance first and is a miss. *)
Lemma C2_instance_shadows_terrain :
  prepare "Generated_Trees" Boxes.simple_scene
    = Return tt Boxes.centre_start ∧
  Projekt.loop_body (host := Boxes.centre_host) "Plane" "tree"
    "Generated_Trees" 6 1000 1 1 false (1 # 2) 0 (mkLocals [] 0 0)
    Boxes.centre_start
    = Return (mkLocals [] 1 1) Boxes.centre_after ∧
  instances Boxes.centre_after "Generated_Trees" = ["tree0"] ∧
  raycast_to_terrain (host := Boxes.centre_host) "Plane" 0 0 1000
    Boxes.centre_start
    = Return (Some ((0, 0, 0)%Q, 0)) Boxes.centre_start ∧
  raycast_to_terrain (host := Boxes.centre_host) "Plane" 0 0 1000
    Boxes.centre_after
    = Return None Boxes.centre_after.
Proof. repeat split; vm_compute; reflexivity. Qed.

(** * Validation *)

Section Validation.
Context {host : Host}.

(** In the project folder's script each of the four configuration errors
    fails the run at once: a [RuntimeError] with a message, raised in the
    world the run started in, so the target is neither created, nor
    cleared, nor filled.  The script under [scripts/] does the same for
    the three errors it checks. *)
Ltac fails_with := eexists; split; [|reflexivity]; discriminate.

Theorem configuration_errors_fail_fast sname cname count area z_start
    min_scale max_scale use_vgroup path_threshold min_distance w :
  (data_objects w !! terrain_name = None ∨
   (∃ ot, data_objects w !! terrain_name = Some ot ∧ type ot ≠ "MESH") ∨
   data_objects w !! sname = None ∨
   (max_scale < min_scale)%Q) →
  (∃ msg, msg ≠ "" ∧
     Projekt.scatter_on_terrain sname cname count area z_start min_scale
       max_scale use_vgroup path_threshold min_distance w
     = Raise (RuntimeError msg) w) ∧
  ((data_objects w !! terrain_name = None ∨
    data_objects w !! sname = None ∨
    (max_scale < min_scale)%Q) →
   ∃ msg, msg ≠ "" ∧
     Scripts.scatter_on_terrain sname cname count area z_start min_scale
       max_scale path_threshold min_distance w
     = Raise (RuntimeError msg) w).
Proof.
  intros Hbad. split.
  - unfold Projekt.scatter_on_terrain, bind, objects_get, deref, raise.
    destruct (data_objects w !! terrain_name) as [ot|] eqn:Hter;
      rewrite ?Hter; [|fails_with].
    destruct (String.eqb (type ot) "MESH") eqn:Hty; simpl; [|fails_with].
    apply String.eqb_eq in Hty.
    destruct (data_objects w !! sname) as [os|] eqn:Hsrc; [|fails_with].
    destruct (Qltb max_scale min_scale) eqn:Hsc; [fails_with|].
    apply Qltb_false in Hsc.
    destruct Hbad as [? | [(ot' & [= <-] & ?) | [? | Hlt]]]; try done.
    by apply Qle_not_lt in Hsc.
  - intros Hbad'.
    unfold Scripts.scatter_on_terrain, bind, objects_get, raise.
    destruct (data_objects w !! terrain_name) as [ot|] eqn:Hter;
      [|fails_with].
    destruct (data_objects w !! sname) as [os|] eqn:Hsrc.
    2:{ eexists. split; [|reflexivity]. by destruct sname. }
    destruct (Qltb max_scale min_scale) eqn:Hsc; [fails_with|].
    apply Qltb_false in Hsc.
    destruct Hbad' as [? | [? | Hlt]]; try done.
    by apply Qle_not_lt in Hsc.
Qed.

End Validation.

(** C5: the script under [scripts/] does not check that the terrain is a
    mesh.  With an empty named "Plane" it does not fail: it clears the
    target, which loses the instance it held, spends its budget and
    returns; the project folder's script raises on the same input and
    leaves the world as it was. *)
Theorem C5_scripts_accept_a_terrain_that_is_no_mesh :
  (type <$> data_objects Boxes.scene_without_mesh !! "Plane") = Some "EMPTY" ∧
  members Boxes.scene_without_mesh "Generated_Trees" = ["tree0"] ∧
  Scripts.scatter_on_terrain (host := Boxes.centre_host) "tree"
    "Generated_Trees" 1 6 1000 (7 # 10) (12 # 10) (1 # 2) (3 # 2)
    Boxes.scene_without_mesh = Return (0, 40) Boxes.without_mesh_after ∧
  members Boxes.without_mesh_after "Generated_Trees" = [] ∧
  data_objects Boxes.without_mesh_after !! "tree0" = None ∧
  Projekt.scatter_on_terrain (host := Boxes.centre_host) "tree"
    "Generated_Trees" 1 6 1000 (7 # 10) (12 # 10) true (1 # 2) (3 # 2)
    Boxes.scene_without_mesh
  = Raise (RuntimeError "Terrain must be mesh") Boxes.scene_without_mesh.
Proof.
  repeat split; vm_compute; reflexivity.
Qed.

(** * Regeneration *)

Lemma world_eq (w1 w2 : World) :
  data_objects w1 = data_objects w2 →
  data_collections w1 = data_collections w2 →
  scene_children w1 = scene_children w2 →
  random_pos w1 = random_pos w2 → w1 = w2.
Proof. destruct w1, w2. simpl. by intros -> -> -> ->. Qed.

Lemma unparent_all_id l o :
  (∀ m, m ∈ l → parent o ≠ Some m) →
  foldl (λ o0 m, unparent m o0) o l = o.
Proof.
  revert o. induction l as [|m l IH]; intros o Hp; [done|]. simpl.
  assert (Hm : unparent m o = o).
  { unfold unparent. rewrite bool_decide_eq_false_2; [done|].
    apply Hp. by left. }
  rewrite Hm. apply IH. intros m' Hm'. by apply Hp, list_elem_of_further.
Qed.

(** Removing from a world what was created since [w1] gives [w1] back. *)
Lemma remove_all_extends col news w1 w' :
  world_ok w1 → data_collections w1 !! col = Some [] →
  extends col news w1 w' →
  remove_all news w' =
  mkWorld (data_objects w1) (data_collections w1) (scene_children w1)
          (random_pos w').
Proof.
  intros [Hpc Hmc] Hempty Hext.
  destruct (ext_cols _ _ _ _ Hext) as (old & Hold & Hcols).
  rewrite Hempty in Hold. injection Hold as <-. simpl in Hcols.
  apply world_eq; simpl.
  - apply map_eq. intros k. rewrite lookup_remove_all.
    destruct (decide (k ∈ news)) as [Hk|Hk].
    + symmetry. by apply (ext_fresh _ _ _ _ Hext).
    + rewrite (ext_frame _ _ _ _ Hext) by done.
      destruct (data_objects w1 !! k) as [o|] eqn:Ho; [|done]. simpl.
      f_equal. apply unparent_all_id. intros m Hm Hp.
      destruct (Hpc k o m Ho Hp) as [om Hom].
      rewrite (ext_fresh _ _ _ _ Hext m Hm) in Hom. discriminate.
  - apply map_eq. intros c. rewrite collections_remove_all, Hcols.
    destruct (decide (col = c)) as [<-|Hne].
    + rewrite lookup_insert_eq, Hempty. simpl. f_equal.
      by apply filter_not_elem_of_nil.
    + rewrite lookup_insert_ne by done.
      destruct (data_collections w1 !! c) as [l|] eqn:Hl; [|done]. simpl.
      f_equal. apply filter_not_elem_of_id. intros n Hn Hin.
      destruct (Hmc c l n Hl Hn) as [on Hon].
      rewrite (ext_fresh _ _ _ _ Hext n Hin) in Hon. discriminate.
  - rewrite scene_children_remove_all. apply (ext_scene _ _ _ _ Hext).
  - apply random_pos_remove_all.
Qed.

(** Preparing the target again, after a run and a reseeding, leads back to
    the world the run's loop started in. *)
Lemma prepare_again col news w1 w' :
  world_ok w1 → data_collections w1 !! col = Some [] → random_pos w1 = 0%nat →
  extends col news w1 w' →
  prepare col (seed w') = Return tt w1.
Proof.
  intros Hok Hempty Hpos Hext.
  destruct (ext_cols _ _ _ _ Hext) as (old & Hold & Hcols).
  rewrite Hempty in Hold. injection Hold as <-. simpl in Hcols.
  assert (Hc : data_collections (seed w') !! col = Some news).
  { simpl. by rewrite Hcols, lookup_insert_eq. }
  unfold prepare. apply bind_Return. exists col, (seed w'). split.
  { unfold get_or_create_collection, bind, collections_get. by rewrite Hc. }
  unfold clear_collection. apply bind_Return. exists news, (seed w').
  split; [by apply collection_objects_Return|].
  rewrite for_each_remove_exists.
  - f_equal. rewrite (remove_all_extends col news w1); try done.
    + destruct w1. simpl in *. by subst.
    + eapply extends_same_scene; [apply same_scene_refl| |exact Hext].
      by repeat split.
  - apply (ext_nodup _ _ _ _ Hext).
  - intros n Hn. simpl. by apply (ext_new _ _ _ _ Hext).
Qed.

(** * What a run leaves in the target *)

Lemma length_squared_sym p q :
  (length_squared (vec_sub p q) == length_squared (vec_sub q p))%Q.
Proof.
  destruct p as [[px py] pz], q as [[qx qy] qz]. simpl. ring.
Qed.

Lemma length_squared_nonneg v : (0 <= length_squared v)%Q.
Proof.
  destruct v as [[x y] z]. simpl.
  assert (Hsq : ∀ a : Q, (0 <= a * a)%Q) by (intros a; nra).
  pose proof (Hsq x). pose proof (Hsq y). pose proof (Hsq z). lra.
Qed.

(** The exact test on squares is the test on Euclidean lengths. *)
Lemma length_ltb_false_sqrt v d :
  (0 < d)%Q → length_ltb v d = false →
  (Q2R d <= sqrt (Q2R (length_squared v)))%R.
Proof.
  intros Hd H. unfold length_ltb in H.
  rewrite (proj2 (Qltb_true 0 d) Hd) in H. simpl in H.
  apply Qltb_false in H. apply Qle_Rle in H. rewrite Q2R_mult in H.
  apply Qlt_Rlt in Hd. rewrite RMicromega.Q2R_0 in Hd.
  rewrite <- (sqrt_square (Q2R d)) by lra.
  by apply sqrt_le_1_alt.
Qed.

Section TargetContents.
Context {host : Host}.

Lemma scattering_apart src col min_scale max_scale d w1 s w :
  (0 < d)%Q →
  scattering src col min_scale max_scale d w1 s w → apart d w col.
Proof.
  intros Hd [_ _ _ _ Hpos Hsp].
  specialize (Hpos (proj2 (Qltb_true 0 d) Hd)).
  assert (Hat : ∀ i a, instances w col !! i = Some a →
            position w a = placed_positions s !! i ∧
            is_Some (placed_positions s !! i)).
  { intros i a Hi.
    assert (Hl : (position w <$> instances w col) !! i
                 = Some (position w a)) by by rewrite list_lookup_fmap, Hi.
    rewrite Hpos, list_lookup_fmap in Hl.
    destruct (placed_positions s !! i) as [p|]; [|discriminate].
    injection Hl as <-. eauto. }
  split.
  - intros a [i Hi]%list_elem_of_lookup_1.
    destruct (Hat i a Hi) as [-> ?]. done.
  - intros i j a b pa pb Hij Hi Hj Ha Hb.
    destruct (Hat i a Hi) as [Ha' _]. destruct (Hat j b Hj) as [Hb' _].
    rewrite Ha in Ha'. rewrite Hb in Hb'. symmetry in Ha', Hb'.
    destruct (Nat.lt_total i j) as [Hlt | [-> | Hgt]]; [| done |].
    + rewrite (Qeq_eqR _ _ (length_squared_sym pa pb)).
      apply length_ltb_false_sqrt; [done|]. by apply (Hsp i j).
    + apply length_ltb_false_sqrt; [done|]. by apply (Hsp j i).
Qed.

Lemma scattering_transforms src col min_scale max_scale d w1 s w :
  (∀ n, (0 <= random_stream n)%Q ∧ (random_stream n < 1)%Q) →
  (min_scale <= max_scale)%Q →
  scattering src col min_scale max_scale d w1 s w →
  transforms_in_range min_scale max_scale w col.
Proof.
  intros Hu Hmm [_ _ _ Hroots _ _] r Hr.
  rewrite Forall_forall in Hroots.
  destruct (Hroots r Hr) as (o & k1 & k2 & Ho & Hrot & Hsc).
  destruct (Hu k1) as [H1 H1']. destruct (Hu k2) as [H2 H2'].
  exists o, (0 + (360 - 0) * random_stream k1)%Q,
    (min_scale + (max_scale - min_scale) * random_stream k2)%Q, k1, k2.
  repeat split; try done; try lra.
  - assert (0 <= (max_scale - min_scale) * random_stream k2)%Q
      by (apply Qmult_le_0_compat; lra).
    lra.
  - assert ((max_scale - min_scale) * random_stream k2
            <= (max_scale - min_scale) * 1)%Q.
    { rewrite !(Qmult_comm (max_scale - min_scale)).
      apply Qmult_le_compat_r; lra. }
    lra.
Qed.

Lemma Projekt_run_scattering sname cname count area z_start min_scale
    max_scale use_vgroup path_threshold min_distance w p t w' :
  world_ok w →
  Projekt.scatter_on_terrain sname cname count area z_start min_scale
    max_scale use_vgroup path_threshold min_distance w = Return (p, t) w' →
  ∃ w1 s, prepare cname w = Return tt w1 ∧
    scattering sname cname min_scale max_scale min_distance w1 s w' ∧
    p = placed s ∧ t = tries s ∧ (min_scale <= max_scale)%Q.
Proof.
  intros Hok H.
  apply Projekt_run in H as (ot & w1 & s & _ & _ & _ & Hsc & Hprep & Hw & -> & ->).
  exists w1, s. split; [done|]. split; [|by rewrite Qltb_false in Hsc].
  eapply loop_scattering; [|exact Hok|exact Hprep|exact Hw].
  intros s0 w0 s0' w0'. apply Projekt_loop_body_attempt.
Qed.

Lemma Scripts_run_scattering sname cname count area z_start min_scale
    max_scale path_threshold min_distance w p t w' :
  world_ok w →
  Scripts.scatter_on_terrain sname cname count area z_start min_scale
    max_scale path_threshold min_distance w = Return (p, t) w' →
  ∃ w1 s, prepare cname w = Return tt w1 ∧
    scattering sname cname min_scale max_scale min_distance w1 s w' ∧
    p = placed s ∧ t = tries s ∧ (min_scale <= max_scale)%Q.
Proof.
  intros Hok H.
  apply Scripts_run in H as (w1 & s & _ & _ & Hsc & Hprep & Hw & -> & ->).
  exists w1, s. split; [done|]. split; [|by rewrite Qltb_false in Hsc].
  eapply loop_scattering; [|exact Hok|exact Hprep|exact Hw].
  intros s0 w0 s0' w0'. apply Scripts_loop_body_attempt.
Qed.

(** C1: after a run of [scatter_on_terrain] (either script) with
    [min_distance > 0], from a well-formed data base, the target holds
    [placed] instances, each at a position, and the Euclidean distance
    between the positions of any two of them is at least [min_distance]. *)
Theorem C1_spacing sname cname count area z_start min_scale max_scale
    use_vgroup path_threshold min_distance w :
  world_ok w →
  (0 < min_distance)%Q →
  (∀ p t w',
     Projekt.scatter_on_terrain sname cname count area z_start min_scale
       max_scale use_vgroup path_threshold min_distance w
       = Return (p, t) w' →
     Z.of_nat (length (instances w' cname)) = p ∧
     apart min_distance w' cname) ∧
  (∀ p t w',
     Scripts.scatter_on_terrain sname cname count area z_start min_scale
       max_scale path_threshold min_distance w = Return (p, t) w' →
     Z.of_nat (length (instances w' cname)) = p ∧
     apart min_distance w' cname).
Proof.
  intros Hok Hd. split; intros p t w' H.
  - apply Projekt_run_scattering in H as (w1 & s & _ & Hsc & -> & _);
      [|done].
    split; [apply (sg_count _ _ _ _ _ _ _ _ Hsc)|].
    by eapply scattering_apart.
  - apply Scripts_run_scattering in H as (w1 & s & _ & Hsc & -> & _);
      [|done].
    split; [apply (sg_count _ _ _ _ _ _ _ _ Hsc)|].
    by eapply scattering_apart.
Qed.

(** C9: after a run of [scatter_on_terrain] (either script) from a
    well-formed data base, with a generator whose values lie in [0, 1),
    the root of every instance in the target carries a yaw that
    [random.uniform(0, 360)] computed, in [0, 360) degrees and stored in
    radians, and one scale factor that [random.uniform(min_scale,
    max_scale)] computed, within [min_scale, max_scale], on all three
    axes. *)
Theorem C9_yaw_and_scale sname cname count area z_start min_scale max_scale
    use_vgroup path_threshold min_distance w :
  world_ok w →
  (∀ n, (0 <= random_stream n)%Q ∧ (random_stream n < 1)%Q) →
  (∀ p t w',
     Projekt.scatter_on_terrain sname cname count area z_start min_scale
       max_scale use_vgroup path_threshold min_distance w
       = Return (p, t) w' →
     Z.of_nat (length (instances w' cname)) = p ∧
     transforms_in_range min_scale max_scale w' cname) ∧
  (∀ p t w',
     Scripts.scatter_on_terrain sname cname count area z_start min_scale
       max_scale path_threshold min_distance w = Return (p, t) w' →
     Z.of_nat (length (instances w' cname)) = p ∧
     transforms_in_range min_scale max_scale w' cname).
Proof.
  intros Hok Hu. split; intros p t w' H.
  - apply Projekt_run_scattering in H as (w1 & s & _ & Hsc & -> & _ & Hmm);
      [|done].
    split; [apply (sg_count _ _ _ _ _ _ _ _ Hsc)|].
    by eapply scattering_transforms.
  - apply Scripts_run_scattering in H as (w1 & s & _ & Hsc & -> & _ & Hmm);
      [|done].
    split; [apply (sg_count _ _ _ _ _ _ _ _ Hsc)|].
    by eapply scattering_transforms.
Qed.

End TargetContents.

Section Idempotence.
Context {host : Host}.

Lemma scattering_world_ok src col min_scale max_scale d w1 s w :
  scattering src col min_scale max_scale d w1 s w → world_ok w.
Proof. by intros []. Qed.

(** C3: regeneration with the project folder's script.  After a run from
    a well-formed, freshly seeded data base, whose target holds neither
    the terrain nor the template, the target holds exactly [placed]
    instances; the same request run again after reseeding returns the
    same counts and leaves the very same world, so the same instances at
    the same positions; and any later run on the same target, whatever
    its request and the state of the generator, leaves exactly the
    instances it counts itself. *)
Theorem C3_regeneration sname cname count area z_start min_scale max_scale
    use_vgroup path_threshold min_distance w p t w' :
  world_ok w →
  terrain_name ∉ members w cname →
  sname ∉ members w cname →
  Projekt.scatter_on_terrain sname cname count area z_start min_scale
    max_scale use_vgroup path_threshold min_distance (seed w)
    = Return (p, t) w' →
  Z.of_nat (length (instances w' cname)) = p ∧
  Projekt.scatter_on_terrain sname cname count area z_start min_scale
    max_scale use_vgroup path_threshold min_distance (seed w')
    = Return (p, t) w' ∧
  ∀ sname2 count2 area2 z_start2 min_scale2 max_scale2 use_vgroup2
    path_threshold2 min_distance2 w'' p2 t2 w2,
    same_scene w' w'' →
    Projekt.scatter_on_terrain sname2 cname count2 area2 z_start2 min_scale2
      max_scale2 use_vgroup2 path_threshold2 min_distance2 w''
      = Return (p2, t2) w2 →
    Z.of_nat (length (instances w2 cname)) = p2.
Proof.
  intros Hok Hter Hsrc Hrun.
  assert (Hoks : world_ok (seed w)).
  { eapply world_ok_same_scene; [|exact Hok]. by repeat split. }
  pose proof Hrun as Hrun0.
  apply Projekt_run in Hrun
    as (ot & w1 & s & Hot & Hty & [os Hos] & Hsc & Hprep & Hw & -> & ->).
  assert (Hinv : scattering sname cname min_scale max_scale min_distance
                   w1 s w').
  { eapply loop_scattering; [|exact Hoks|exact Hprep|exact Hw].
    intros s0 w0 s0' w0'. apply Projekt_loop_body_attempt. }
  pose proof (prepare_Return _ _ _ _ Hprep Hoks)
    as (Hok1 & Hempty & Hpos & Hkeep).
  destruct (sg_news _ _ _ _ _ _ _ _ Hinv) as (news & Hext & _).
  split; [apply (sg_count _ _ _ _ _ _ _ _ Hinv)|]. split.
  - apply Projekt_run.
    destruct (Hkeep terrain_name ot Hot Hter) as (ot' & Hot1 & Hty1).
    destruct (Hkeep sname os Hos Hsrc) as (os' & Hos1 & _).
    destruct (extends_lookup_old _ _ _ _ terrain_name Hext
                (mk_is_Some _ _ Hot1)) as [_ Hot'].
    destruct (extends_lookup_old _ _ _ _ sname Hext
                (mk_is_Some _ _ Hos1)) as [_ Hos'].
    exists ot', w1, s. repeat split; try done.
    + simpl. by rewrite Hot'.
    + congruence.
    + simpl. rewrite Hos'. eauto.
    + by apply (prepare_again cname news).
  - intros sname2 count2 area2 z_start2 min_scale2 max_scale2 use_vgroup2
      path_threshold2 min_distance2 w'' p2 t2 w2 Hsame Hrun2.
    apply Projekt_run_scattering in Hrun2 as (w3 & s2 & _ & Hsc2 & -> & _).
    + apply (sg_count _ _ _ _ _ _ _ _ Hsc2).
    + eapply world_ok_same_scene; [exact Hsame|].
      by eapply scattering_world_ok.
Qed.

End Idempotence.

(** * The theorems at work on the scene of boxes *)

Lemma cycle_in_range (l : list Q) :
  l ≠ [] → Forall (λ q, (0 <= q)%Q ∧ (q < 1)%Q) l →
  ∀ n, (0 <= Boxes.cycle l n)%Q ∧ (Boxes.cycle l n < 1)%Q.
Proof.
  intros Hne Hall n. unfold Boxes.cycle.
  rewrite Forall_forall in Hall. apply Hall, list_elem_of_In, nth_In.
  apply Nat.mod_upper_bound. by destruct l.
Qed.

Lemma simple_scene_ok : world_ok Boxes.simple_scene.
Proof. apply world_okb_sound. vm_compute. reflexivity. Qed.

Lemma C1_spacing_witness :
  world_ok Boxes.simple_scene ∧ (0 < 3 # 2)%Q ∧
  Z.of_nat (length (instances Boxes.spaced_run "Generated_Trees")) = 2 ∧
  apart (3 # 2) Boxes.spaced_run "Generated_Trees".
Proof.
  split; [exact simple_scene_ok|]. split; [reflexivity|].
  apply (C1_spacing (host := Boxes.centre_host) "tree" "Generated_Trees" 2 6
           1000 (7 # 10) (12 # 10) false (1 # 2) (3 # 2) Boxes.simple_scene
           simple_scene_ok eq_refl) with (t := 3).
  vm_compute. reflexivity.
Defined.

Lemma C3_regeneration_witness :
  world_ok Boxes.simple_scene ∧
  Z.of_nat (length (instances Boxes.spaced_run "Generated_Trees")) = 2 ∧
  Projekt.scatter_on_terrain (host := Boxes.centre_host) "tree"
    "Generated_Trees" 2 6 1000 (7 # 10) (12 # 10) false (1 # 2) (3 # 2)
    (seed Boxes.spaced_run) = Return (2, 3) Boxes.spaced_run.
Proof.
  split; [exact simple_scene_ok|].
  assert (Hno : ∀ n, n ∉ members Boxes.simple_scene "Generated_Trees").
  { intros n. replace (members Boxes.simple_scene "Generated_Trees")
      with (@nil string) by (vm_compute; reflexivity).
    apply not_elem_of_nil. }
  destruct (C3_regeneration (host := Boxes.centre_host) "tree"
              "Generated_Trees" 2 6 1000 (7 # 10) (12 # 10) false (1 # 2)
              (3 # 2) Boxes.simple_scene 2 3 Boxes.spaced_run
              simple_scene_ok (Hno _) (Hno _)) as (Hcount & Hagain & _).
  - vm_compute. reflexivity.
  - split; [exact Hcount|exact Hagain].
Defined.

Lemma C6_attempt_budget_witness :
  0 <= 2 ∧
  within_budget 2 (2, 3) ∧
  Projekt.scatter_on_terrain (host := Boxes.centre_host) "tree"
    "Generated_Trees" 2 6 1000 (7 # 10) (12 # 10) false (1 # 2) (3 # 2)
    Boxes.simple_scene = Return (2, 3) Boxes.spaced_run.
Proof.
  split; [lia|].
  assert (Hrun : Projekt.scatter_on_terrain (host := Boxes.centre_host)
            "tree" "Generated_Trees" 2 6 1000 (7 # 10) (12 # 10) false
            (1 # 2) (3 # 2) Boxes.simple_scene
            = Return (2, 3) Boxes.spaced_run) by (vm_compute; reflexivity).
  split; [|exact Hrun].
  destruct (C6_attempt_budget (host := Boxes.centre_host) "tree"
              "Generated_Trees" 2 6 1000 (7 # 10) (12 # 10) false (1 # 2)
              (3 # 2) Boxes.simple_scene) as [HP _]; [lia|].
  rewrite Hrun in HP. exact HP.
Defined.

Lemma C8_missing_field_rejects_nothing_witness :
  data_objects Boxes.simple_scene !! "Plane" = Some (Boxes.plane ∅) ∧
  vertex_groups (Boxes.plane ∅) !! no_trees_vgroup = None ∧
  (0 <= 1 # 2)%Q ∧
  vgroup_weight_at_face_avg "Plane" no_trees_vgroup 0 Boxes.simple_scene
    = Return 0%Q Boxes.simple_scene ∧
  Projekt.loop_body (host := Boxes.centre_host) "Plane" "tree"
    "Generated_Trees" 6 1000 (7 # 10) (12 # 10) true (1 # 2) (3 # 2)
    (mkLocals [] 0 0) Boxes.simple_scene
  = Projekt.loop_body (host := Boxes.centre_host) "Plane" "tree"
      "Generated_Trees" 6 1000 (7 # 10) (12 # 10) false (1 # 2) (3 # 2)
      (mkLocals [] 0 0) Boxes.simple_scene.
Proof.
  assert (H1 : data_objects Boxes.simple_scene !! "Plane"
               = Some (Boxes.plane ∅)) by (vm_compute; reflexivity).
  assert (H2 : vertex_groups (Boxes.plane ∅) !! no_trees_vgroup = None)
    by (vm_compute; reflexivity).
  assert (H3 : (0 <= 1 # 2)%Q) by (vm_compute; discriminate).
  destruct (C8_missing_field_rejects_nothing (host := Boxes.centre_host)
              "Plane" "tree" "Generated_Trees" 6 1000 (7 # 10) (12 # 10)
              (1 # 2) (3 # 2) (mkLocals [] 0 0) Boxes.simple_scene
              (Boxes.plane ∅) H1 H2 H3) as (Hzero & Hsame & _).
  split; [exact H1|]. split; [exact H2|]. split; [exact H3|].
  split; [by apply Hzero|exact Hsame].
Defined.

Lemma C9_yaw_and_scale_witness :
  world_ok Boxes.simple_scene ∧
  (∀ n, (0 <= random_stream (Host := Boxes.centre_host) n)%Q ∧
        (random_stream (Host := Boxes.centre_host) n < 1)%Q) ∧
  Z.of_nat (length (instances Boxes.spaced_run "Generated_Trees")) = 2 ∧
  transforms_in_range (host := Boxes.centre_host) (7 # 10) (12 # 10)
    Boxes.spaced_run "Generated_Trees".
Proof.
  assert (Hu : ∀ n, (0 <= random_stream (Host := Boxes.centre_host) n)%Q ∧
                    (random_stream (Host := Boxes.centre_host) n < 1)%Q).
  { apply cycle_in_range; [done|]. repeat constructor; done. }
  split; [exact simple_scene_ok|]. split; [exact Hu|].
  apply (C9_yaw_and_scale (host := Boxes.centre_host) "tree"
           "Generated_Trees" 2 6 1000 (7 # 10) (12 # 10) false (1 # 2)
           (3 # 2) Boxes.simple_scene simple_scene_ok Hu) with (t := 3).
  vm_compute. reflexivity.
Defined.

Lemma C10_unassigned_vertex_counts_as_zero_witness :
  data_objects Boxes.scene_with_path !! "Plane"
    = Some (Boxes.plane Boxes.path_groups) ∧
  ∃ q, vgroup_weight_at_face_avg "Plane" "NoTrees" 0 Boxes.scene_with_path
         = Return q Boxes.scene_with_path ∧
       (q == (3 # 2) / 4)%Q.
Proof.
  assert (H1 : data_objects Boxes.scene_with_path !! "Plane"
               = Some (Boxes.plane Boxes.path_groups))
    by (vm_compute; reflexivity).
  split; [exact H1|].
  destruct (C10_unassigned_vertex_counts_as_zero "Plane" "NoTrees" 0
              Boxes.scene_with_path (Boxes.plane Boxes.path_groups)
              {[ 0%nat := 1%Q; 1%nat := (1 # 2)%Q ]} Boxes.plane_mesh
              [0; 1; 3; 2]%nat H1)
    as (_ & _ & q & Hq & Heq); try (vm_compute; reflexivity); [done|].
  exists q. split; [exact Hq|]. rewrite Heq. vm_compute. reflexivity.
Defined.

(** * Replication of a hierarchy *)

Lemma tree_ind' (P : tree → Prop) :
  (∀ n ks, Forall P ks → P (Node n ks)) → ∀ t, P t.
Proof.
  intros Hnode. fix IH 1. intros [n ks]. apply Hnode.
  induction ks as [|k ks IHks]; constructor; [apply IH|exact IHks].
Qed.

Lemma height_kids n ks d :
  (height (Node n ks) ≤ S d)%nat → Forall (λ k, (height k ≤ d)%nat) ks.
Proof.
  simpl. intros H. apply le_S_n in H.
  induction ks as [|k ks IH]; constructor; simpl in H.
  - fold (list_max (map height ks)) in H. lia.
  - apply IH. fold (list_max (map height ks)) in H. lia.
Qed.

Lemma nodes_root t : root t ∈ nodes t.
Proof. destruct t. simpl. by left. Qed.

Lemma elem_of_flat_map_nodes n ks :
  n ∈ flat_map nodes ks ↔ ∃ k, k ∈ ks ∧ n ∈ nodes k.
Proof.
  rewrite list_elem_of_In, in_flat_map. split.
  - intros (k & Hk & Hn). exists k. by rewrite !list_elem_of_In.
  - intros (k & Hk & Hn). exists k. by rewrite <- !list_elem_of_In.
Qed.

(** The children of [n] do not change when objects with other parents
    appear. *)
Lemma children_of_frame (objs objs' : gmap string Object) n :
  (∀ k o, objs !! k = Some o → objs' !! k = Some o) →
  (∀ k o, objs' !! k = Some o → objs !! k = None → parent o ≠ Some n) →
  children_of objs' n = children_of objs n.
Proof.
  intros Hsub Hnew. unfold children_of. do 2 f_equal.
  apply map_eq. intros k. apply option_eq. intros o.
  rewrite !map_lookup_filter_Some. simpl. split.
  - intros [Hk Hp]. split; [|done].
    destruct (objs !! k) as [o0|] eqn:Hk0.
    + apply Hsub in Hk0. congruence.
    + by destruct (Hnew k o Hk Hk0).
  - intros [Hk Hp]. split; [|done]. by apply Hsub.
Qed.

Lemma hierarchy_nodes_exist objs t :
  hierarchy objs t → ∀ n, n ∈ nodes t → is_Some (objs !! n).
Proof.
  induction t as [x ks IH] using tree_ind'. intros Hh n Hn.
  inversion Hh as [? ? Hx Hch Hks]; subst.
  simpl in Hn. apply elem_of_cons in Hn as [->|Hn]; [done|].
  apply elem_of_flat_map_nodes in Hn as (k & Hk & Hn).
  rewrite Forall_forall in IH, Hks. exact (IH k Hk (Hks k Hk) n Hn).
Qed.

Lemma hierarchy_frame (objs objs' : gmap string Object) t :
  (∀ k o, objs !! k = Some o → objs' !! k = Some o) →
  (∀ k o p, objs' !! k = Some o → objs !! k = None → parent o = Some p →
            p ∉ nodes t) →
  hierarchy objs t → hierarchy objs' t.
Proof.
  intros Hsub. induction t as [x ks IH] using tree_ind'. intros Hnew Hh.
  inversion Hh as [? ? [ox Hx] Hch Hks]; subst. constructor.
  - apply Hsub in Hx. eauto.
  - rewrite <- Hch. apply children_of_frame; [done|].
    intros k o Hk Hk0 Hp. apply (Hnew k o x Hk Hk0 Hp). simpl. by left.
  - rewrite Forall_forall in IH, Hks |- *. intros k Hk.
    apply (IH k Hk); [|by apply Hks].
    intros k0 o p Hk0 Hk00 Hp Hin. apply (Hnew k0 o p Hk0 Hk00 Hp).
    simpl. right. apply elem_of_flat_map_nodes. eauto.
Qed.

(** [copied] reads the template at the nodes of [t] below its root and the
    copy at the nodes of [t'] below its root. *)
Lemma copied_frame (objs1 objs2 objs1' objs2' : gmap string Object) t :
  ∀ t', copied objs1 objs1' t t' →
  (∀ n, n ∈ flat_map nodes (kids t) → objs2 !! n = objs1 !! n) →
  (∀ n, n ∈ flat_map nodes (kids t') → objs2' !! n = objs1' !! n) →
  copied objs2 objs2' t t'.
Proof.
  induction t as [x ks IH] using tree_ind'. intros t' Hc H1 H2.
  inversion Hc as [? ? x' ks' Hroots Hsub]; subst. simpl in H1, H2.
  constructor.
  - clear IH Hsub Hc. induction Hroots as [|k k' ks ks' (o & Ho & Ho') _ IHr];
      constructor.
    + exists o. rewrite H1, H2; [done| |].
      * simpl. apply elem_of_app. left. apply nodes_root.
      * simpl. apply elem_of_app. left. apply nodes_root.
    + apply IHr; intros n Hn; [apply H1|apply H2]; simpl;
        apply elem_of_app; by right.
  - clear Hroots Hc. induction Hsub as [|k k' ks ks' Hk _ IHs];
      constructor.
    + apply Forall_cons in IH as [IHk _]. apply (IHk k' Hk).
      * intros n Hn. apply H1. simpl. apply elem_of_app. left.
        destruct k. simpl in *. by right.
      * intros n Hn. apply H2. simpl. apply elem_of_app. left.
        destruct k'. simpl in *. by right.
    + apply Forall_cons in IH as [_ IHks]. apply IHs; [done| |];
        intros n Hn; [apply H1|apply H2]; simpl; apply elem_of_app; by right.
Qed.

Lemma with_parent_copy p o :
  with_matrix_basis (matrix_basis o)
    (with_matrix_parent_inverse (matrix_parent_inverse o) (with_parent p o))
  = with_parent p o.
Proof. by destruct o. Qed.

Lemma deref_Return_eq ref w o :
  data_objects w !! ref = Some o → deref ref w = Return o w.
Proof. unfold deref. by intros ->. Qed.

Lemma update_Return_eq ref f w o :
  data_objects w !! ref = Some o →
  update ref f w = Return tt (set_objects (insert ref (f o)) w).
Proof.
  intros Ho. unfold update. by rewrite (bind_Return_eq _ _ _ _ _ (deref_Return_eq _ _ _ Ho)).
Qed.

(** The new objects of an extension are the ones its collection gained. *)
Lemma extends_unique col l1 l2 w w' :
  extends col l1 w w' → extends col l2 w w' → l1 = l2.
Proof.
  intros [_ _ _ _ (old1 & Ho1 & Hc1) _] [_ _ _ _ (old2 & Ho2 & Hc2) _].
  rewrite Ho1 in Ho2. injection Ho2 as <-.
  assert (H : data_collections w' !! col = Some (old1 ++ l1))
    by by rewrite Hc1, lookup_insert_eq.
  rewrite Hc2, lookup_insert_eq in H. injection H as H.
  by apply app_inv_head in H.
Qed.

Lemma Forall2_impl_Forall_l {A B} (P : A → Prop) (R R' : A → B → Prop) l l' :
  Forall P l → Forall2 R l l' → (∀ a b, P a → R a b → R' a b) →
  Forall2 R' l l'.
Proof.
  intros HP HR Himpl. induction HR as [|a b l l' Hab _ IH]; constructor.
  - apply Himpl; [|done]. by apply Forall_cons in HP as [? _].
  - apply IH. by apply Forall_cons in HP as [_ ?].
Qed.

Section ReplicationTotal.
Context {host : Host}.
Variable col : string.

(** The body of the [for child in src_obj.children] loop. *)
Let child_body (depth : nat) (new_obj child : string) : M unit :=
  new_child <- copy_with_children depth child col ;;
  update new_child (with_parent (Some new_obj)) ;;;
  c <- deref child ;;
  update new_child (with_matrix_parent_inverse (matrix_parent_inverse c)) ;;;
  c <- deref child ;;
  update new_child (with_matrix_basis (matrix_basis c)).

Lemma child_body_Return depth new_obj child w r w1 o :
  copy_with_children depth child col w = Return r w1 →
  data_objects w1 !! r = Some o →
  data_objects w1 !! child = Some o →
  r ≠ child →
  child_body depth new_obj child w
  = Return tt (set_objects (insert r (with_parent (Some new_obj) o)) w1).
Proof.
  intros Hcopy Hr Hchild Hne. unfold child_body.
  rewrite (bind_Return_eq _ _ _ _ _ Hcopy).
  rewrite (bind_Return_eq _ _ _ _ _ (update_Return_eq _ _ _ _ Hr)).
  erewrite bind_Return_eq;
    [|apply deref_Return_eq; simpl; rewrite lookup_insert_ne by done;
      exact Hchild].
  erewrite bind_Return_eq;
    [|apply update_Return_eq; simpl; apply lookup_insert_eq].
  erewrite bind_Return_eq;
    [|apply deref_Return_eq; simpl; rewrite !lookup_insert_ne by done;
      exact Hchild].
  erewrite update_Return_eq; [|simpl; apply lookup_insert_eq].
  by rewrite !set_objects_insert_insert, with_parent_copy.
Qed.

Lemma copy_kids depth x x' :
  (∀ t w, (height t ≤ depth)%nat → copy_pre col w t →
     ∃ r w' t', copy_with_children depth (root t) col w = Return r w' ∧
                copy_post col w t r w' t') →
  ∀ ks w,
    Forall (λ k, (height k ≤ depth)%nat) ks →
    Forall (hierarchy (data_objects w)) ks →
    NoDup (flat_map nodes ks) →
    (∀ k, k ∈ ks →
       ∃ o, data_objects w !! root k = Some o ∧ parent o = Some x) →
    x ∉ flat_map nodes ks → x' ∉ flat_map nodes ks →
    is_Some (data_objects w !! x') →
    is_Some (data_collections w !! col) → members_closed w →
    ∃ w' ks',
      for_each (map root ks) (child_body depth x') w = Return tt w' ∧
      extends col (flat_map nodes ks') w w' ∧
      random_pos w' = random_pos w ∧
      data_objects w' !! x' = data_objects w !! x' ∧
      Forall2 (λ k k', ∃ o, data_objects w !! root k = Some o ∧
                 data_objects w' !! root k' = Some (with_parent (Some x') o))
              ks ks' ∧
      Forall2 (copied (data_objects w) (data_objects w')) ks ks'.
Proof.
  intros IH. induction ks as [|k ks IHks];
    intros w Hh Hhier Hnd Hpar Hx Hx' Hex' [l Hcol] Hmc.
  { exists w, []. split; [done|]. split; [by eapply extends_nil|].
    repeat split; constructor. }
  apply Forall_cons in Hh as [Hhk Hh].
  apply Forall_cons in Hhier as [Hhierk Hhier].
  simpl in Hnd, Hx, Hx'. apply NoDup_app in Hnd as (Hndk & Hdisj & Hnd).
  rewrite not_elem_of_app in Hx, Hx'.
  destruct Hx as [Hxk Hx]. destruct Hx' as [Hx'k Hx'].
  destruct (Hpar k) as (ok & Hok & Hpk); [by left|].
  destruct (IH k w Hhk) as (rk & wk & k' & Hcopy & Hpost).
  { repeat split; try done; eauto.
    intros o p Ho Hp. rewrite Hok in Ho. injection Ho as <-. congruence. }
  destruct Hpost as (Hroot & Hext & Hrand & Hrk & Hcopied).
  rewrite Hok in Hrk.
  pose proof (copy_with_children_extends _ _ _ _ _ _ Hcopy)
    as (rest & Hext2 & _ & _ & Hparents).
  pose proof (extends_unique _ _ _ _ _ Hext Hext2) as Hnodes.
  assert (Hold : ∀ n, is_Some (data_objects w !! n) →
            (n ∉ nodes k') ∧ data_objects wk !! n = data_objects w !! n).
  { intros n. exact (extends_lookup_old _ _ _ _ n Hext). }
  assert (Hrk_in : rk ∈ nodes k') by (rewrite Hnodes; by left).
  assert (Hrk_fresh : data_objects w !! rk = None)
    by by apply (ext_fresh _ _ _ _ Hext).
  destruct (Hold (root k) (mk_is_Some _ _ Hok)) as [Hk_notin Hk_same].
  rewrite Hok in Hk_same.
  assert (Hne : rk ≠ root k).
  { intros Heq. rewrite Heq in Hrk_fresh. congruence. }
  set (wk' := set_objects (insert rk (with_parent (Some x') ok)) wk).
  assert (Hbody : child_body depth x' (root k) w = Return tt wk')
    by by apply (child_body_Return _ _ _ _ _ _ ok).
  assert (Hext' : extends col (nodes k') w wk')
    by by apply extends_update.
  assert (Hold' : ∀ n, is_Some (data_objects w !! n) →
            data_objects wk' !! n = data_objects w !! n).
  { intros n Hn. destruct (Hold n Hn) as [Hnin Hsame].
    unfold wk'. simpl. rewrite lookup_insert_ne; [done|].
    intros <-. done. }
  destruct (IHks wk') as (we & ks' & Hfor & Hexte & Hrande & Hx'e & Hroots & Hsubs).
  - done.
  - rewrite Forall_forall in Hhier |- *. intros k2 Hk2.
    eapply hierarchy_frame; [| |by apply Hhier].
    + intros n o Hn. rewrite Hold' by eauto. done.
    + intros n o p Hn Hn0 Hp Hin.
      assert (Hp_ex : is_Some (data_objects w !! p)).
      { by apply (hierarchy_nodes_exist _ k2); [apply Hhier|]. }
      assert (Hn_new : n ∈ nodes k').
      { destruct (decide (n ∈ nodes k')) as [?|Hnot]; [done|].
        rewrite (ext_frame _ _ _ _ Hext') in Hn by done. congruence. }
      rewrite Hnodes in Hn_new. apply elem_of_cons in Hn_new as [->|Hrest].
      * unfold wk' in Hn. simpl in Hn. rewrite lookup_insert_eq in Hn.
        injection Hn as <-. simpl in Hp. injection Hp as <-.
        apply Hx'. apply elem_of_flat_map_nodes. eauto.
      * destruct (Hparents n Hrest) as (on & pn & Hon & Hpn & Hpin).
        assert (n ≠ rk).
        { intros ->. pose proof (ext_nodup _ _ _ _ Hext2) as Hnd2.
          apply NoDup_cons in Hnd2 as [? _]. done. }
        unfold wk' in Hn. simpl in Hn. rewrite lookup_insert_ne in Hn by done.
        rewrite Hon in Hn. injection Hn as <-. rewrite Hpn in Hp.
        injection Hp as ->. rewrite <- Hnodes in Hpin.
        destruct (Hold p Hp_ex) as [? _]. done.
  - done.
  - intros k2 Hk2. destruct (Hpar k2) as (o2 & Ho2 & Hp2); [by right|].
    exists o2. rewrite Hold' by eauto. done.
  - done.
  - done.
  - rewrite Hold' by done. done.
  - destruct (ext_cols _ _ _ _ Hext') as (old & _ & ->).
    rewrite lookup_insert_eq. eauto.
  - by apply (extends_members_closed col (nodes k') w).
  - exists we, (k' :: ks'). split; [|split; [|split; [|split; [|split]]]].
    + simpl. by rewrite (bind_Return_eq _ _ _ _ _ Hbody).
    + simpl. by eapply extends_trans.
    + rewrite Hrande. unfold wk'. simpl. done.
    + rewrite Hx'e. by apply Hold'.
    + constructor.
      * exists ok. split; [done|]. rewrite Hroot.
        destruct (extends_lookup_old _ _ _ _ rk Hexte) as [_ ->].
        -- unfold wk'. simpl. by rewrite lookup_insert_eq.
        -- unfold wk'. simpl. rewrite lookup_insert_eq. eauto.
      * eapply (Forall2_impl_Forall_l (hierarchy (data_objects w)));
          [exact Hhier|exact Hroots|]. simpl.
        intros k2 k2' Hh2 (o2 & Ho2 & Ho2'). exists o2. split; [|done].
        rewrite <- Ho2. symmetry. apply Hold'.
        apply (hierarchy_nodes_exist _ k2 Hh2), nodes_root.
    + constructor.
      * eapply copied_frame; [exact Hcopied|done|].
        intros n Hn.
        assert (Hn_in : n ∈ nodes k').
        { destruct k'. simpl in *. by right. }
        assert (Hn_ne : n ≠ rk).
        { intros ->. pose proof (ext_nodup _ _ _ _ Hext) as Hnd2.
          destruct k' as [y ys]. simpl in *. subst y.
          apply NoDup_cons in Hnd2 as [? _]. done. }
        destruct (extends_lookup_old _ _ _ _ n Hexte) as [_ ->].
        -- by apply (ext_new _ _ _ _ Hext').
        -- unfold wk'. simpl. by rewrite lookup_insert_ne.
      * eapply (Forall2_impl_Forall_l (hierarchy (data_objects w)));
          [exact Hhier|exact Hsubs|]. simpl.
        intros k2 k2' Hh2 Hc2. eapply copied_frame; [exact Hc2| |done].
        intros n Hn. symmetry. apply Hold'.
        apply (hierarchy_nodes_exist _ k2 Hh2).
        destruct k2. simpl in *. by right.
Qed.

Lemma children_of_parent (objs : gmap string Object) x n :
  n ∈ children_of objs x → ∃ o, objs !! n = Some o ∧ parent o = Some x.
Proof.
  unfold children_of. intros Hn.
  apply list_elem_of_fmap in Hn as ([n' o] & -> & Hin).
  apply elem_of_map_to_list, map_lookup_filter_Some in Hin as [Ho Hp].
  eauto.
Qed.

(** [copy_with_children] on a well-formed template within the recursion
    depth returns a copy of the whole hierarchy. *)
Lemma copy_with_children_total depth : ∀ t w,
  (height t ≤ depth)%nat → copy_pre col w t →
  ∃ r w' t', copy_with_children depth (root t) col w = Return r w' ∧
             copy_post col w t r w' t'.
Proof.
  induction depth as [|depth IH]; intros [x ks] w Hheight Hpre.
  { simpl in Hheight. lia. }
  destruct Hpre as (Hh & Hnd & Hp3 & [l Hcol] & Hmc).
  inversion Hh as [? ? [ox Hox] Hch Hks]; subst.
  simpl in Hnd, Hp3. apply NoDup_cons in Hnd as [Hx Hnd].
  set (x' := fresh_string x (data_objects w)).
  assert (Hfresh : data_objects w !! x' = None) by apply fresh_string_fresh.
  set (w1 := set_objects (insert x' ox) w).
  set (w2 := set_collections (insert col (l ++ [x'])) w1).
  assert (Hext2 : extends col [x'] w w2) by by apply extends_copy_link.
  assert (Hold2 : ∀ n, is_Some (data_objects w !! n) →
            data_objects w2 !! n = data_objects w !! n).
  { intros n Hn. by destruct (extends_lookup_old _ _ _ _ n Hext2 Hn). }
  assert (Hnodes_ex : ∀ n, n ∈ flat_map nodes ks →
            is_Some (data_objects w !! n)).
  { intros n Hn. apply (hierarchy_nodes_exist _ _ Hh). simpl. by right. }
  assert (Hcopy : Object_copy x w = Return x' w1).
  { apply Object_copy_Return. by exists ox. }
  assert (Hlink : collection_link col x' w1 = Return tt w2).
  { apply collection_link_Return. exists l. repeat split; try done.
    - unfold w1. simpl. rewrite lookup_insert_eq. eauto.
    - intros Hin. destruct (Hmc col l x' Hcol Hin) as [? Hsome]. congruence. }
  assert (Hchildren : Object_children x w2 = Return (map root ks) w2).
  { apply Object_children_Return. split; [done|]. split.
    - rewrite Hold2 by eauto. eauto.
    - rewrite <- Hch. symmetry. apply children_of_frame.
      + intros n o Hn. rewrite Hold2 by eauto. done.
      + intros n o Hn Hn0 Hp.
        assert (n = x') as ->.
        { destruct (decide (n = x')) as [?|Hne]; [done|].
          rewrite (ext_frame _ _ _ _ Hext2) in Hn; [congruence|].
          by intros ->%list_elem_of_singleton. }
        unfold w2, w1 in Hn. simpl in Hn. rewrite lookup_insert_eq in Hn.
        injection Hn as <-. apply (Hp3 ox x Hox Hp). by left. }
  destruct (copy_kids depth x x' IH ks w2)
    as (we & ks' & Hfor & Hexte & Hrande & Hx'e & Hroots & Hsubs).
  - by apply (height_kids x).
  - rewrite Forall_forall in Hks |- *. intros k Hk.
    eapply hierarchy_frame; [| |by apply Hks].
    + intros n o Hn. rewrite Hold2 by eauto. done.
    + intros n o p Hn Hn0 Hp Hin.
      assert (n = x') as ->.
      { destruct (decide (n = x')) as [?|Hne]; [done|].
        rewrite (ext_frame _ _ _ _ Hext2) in Hn; [congruence|].
        by intros ->%list_elem_of_singleton. }
      unfold w2, w1 in Hn. simpl in Hn. rewrite lookup_insert_eq in Hn.
      injection Hn as <-. apply (Hp3 ox p Hox Hp). right.
      apply elem_of_flat_map_nodes. eauto.
  - done.
  - intros k Hk.
    destruct (children_of_parent (data_objects w) x (root k))
      as (o & Ho & Hp).
    { rewrite Hch. by apply list_elem_of_fmap_2. }
    exists o. rewrite Hold2 by eauto. done.
  - done.
  - intros Hin. destruct (Hnodes_ex x' Hin) as [? Hsome]. congruence.
  - unfold w2, w1. simpl. rewrite lookup_insert_eq. eauto.
  - unfold w2. simpl. rewrite lookup_insert_eq. eauto.
  - by apply (extends_members_closed col [x'] w).
  - exists x', we, (Node x' ks'). split.
    + simpl. rewrite (bind_Return_eq _ _ _ _ _ Hcopy).
      rewrite (bind_Return_eq _ _ _ _ _ Hlink).
      rewrite (bind_Return_eq _ _ _ _ _ Hchildren).
      by rewrite (bind_Return_eq _ _ _ _ _ Hfor).
    + split; [done|]. split; [|split; [|split]].
      * change (nodes (Node x' ks')) with ([x'] ++ flat_map nodes ks').
        by eapply extends_trans.
      * by rewrite Hrande.
      * rewrite Hx'e. unfold w2, w1. simpl. by rewrite lookup_insert_eq.
      * constructor.
        -- eapply (Forall2_impl_Forall_l (hierarchy (data_objects w)));
             [exact Hks|exact Hroots|]. simpl.
           intros k k' Hhk (o & Ho & Ho'). exists o. split; [|done].
           rewrite <- Ho. symmetry. apply Hold2.
           apply (hierarchy_nodes_exist _ k Hhk), nodes_root.
        -- eapply (Forall2_impl_Forall_l (hierarchy (data_objects w)));
             [exact Hks|exact Hsubs|]. simpl.
           intros k k' Hhk Hc. eapply copied_frame; [exact Hc| |done].
           intros n Hn. symmetry. apply Hold2.
           apply (hierarchy_nodes_exist _ k Hhk).
           destruct k. simpl in *. by right.
Qed.

End ReplicationTotal.

Section Replicate.
Context {host : Host}.

(** Replication by the project folder's script: on a well-formed template
    [t] within the recursion depth, [place] returns; it has created a copy
    [t'] of the whole hierarchy, of new objects, all linked into the
    target in the order of [nodes t']; the root of the copy is the
    template's root with the placement's position, yaw (about Z, in
    radians) and uniform scale, every other copied object is [copied]: its
    template with the copied parent for parent; nothing else changed. *)
Theorem Projekt_place_replicates_hierarchy src col min_scale max_scale loc
    pp p tr w t :
  root t = src →
  copy_pre col w t →
  (height t ≤ recursion_limit)%nat →
  ∃ w' t' o_src,
    data_objects w !! src = Some o_src ∧
    Projekt.place src col min_scale max_scale loc pp p tr w
      = Return (mkLocals pp (p + 1) tr) w' ∧
    members w' col = members w col ++ nodes t' ∧
    NoDup (nodes t') ∧
    (∀ n, n ∈ nodes t' → data_objects w !! n = None) ∧
    (let yaw := (0 + (360 - 0) * random_stream (random_pos w))%Q in
     let s := (min_scale + (max_scale - min_scale)
                 * random_stream (S (random_pos w)))%Q in
     data_objects w' !! root t'
     = Some (with_scale (s, s, s)
               (with_rotation_euler
                  (set_z (radians yaw) (rotation_euler o_src))
                  (with_location loc o_src)))) ∧
    copied (data_objects w) (data_objects w') t t' ∧
    (∀ k, k ∉ nodes t' → data_objects w' !! k = data_objects w !! k).
Proof.
  intros Hroot Hpre Hheight.
  destruct (copy_with_children_total col _ t w Hheight Hpre)
    as (r & w1 & t' & Hcopy & Hr & Hext & Hrand & Hrobj & Hcopied).
  rewrite Hroot in Hcopy, Hrobj.
  destruct Hpre as (Hh & _).
  destruct (hierarchy_nodes_exist _ _ Hh (root t) (nodes_root t))
    as [osrc Hosrc].
  rewrite Hroot in Hosrc. rewrite Hosrc in Hrobj.
  set (yaw := (0 + (360 - 0) * random_stream (random_pos w))%Q).
  set (s := (min_scale + (max_scale - min_scale)
               * random_stream (S (random_pos w)))%Q).
  set (o' := with_scale (s, s, s)
               (with_rotation_euler
                  (set_z (radians yaw) (rotation_euler osrc))
                  (with_location loc osrc))).
  set (w' := mkWorld (insert r o' (data_objects w1)) (data_collections w1)
               (scene_children w1) (S (S (random_pos w1)))).
  assert (Hplace : Projekt.place src col min_scale max_scale loc pp p tr w
                   = Return (mkLocals pp (p + 1) tr) w').
  { unfold Projekt.place.
    rewrite (bind_Return_eq _ _ _ _ _ Hcopy).
    rewrite (bind_Return_eq _ _ _ _ _ (update_Return_eq _ _ _ _ Hrobj)).
    rewrite bind_random_uniform.
    erewrite bind_Return_eq;
      [|apply deref_Return_eq; simpl; apply lookup_insert_eq].
    erewrite bind_Return_eq;
      [|apply update_Return_eq; simpl; apply lookup_insert_eq].
    rewrite bind_random_uniform.
    erewrite bind_Return_eq;
      [|apply update_Return_eq; simpl; apply lookup_insert_eq].
    unfold ret, w', o', s, yaw, set_objects, draw. simpl.
    by rewrite ?Hrand, !insert_insert_eq. }
  assert (Hnd : NoDup (nodes t')) by apply (ext_nodup _ _ _ _ Hext).
  assert (Hr_in : r ∈ nodes t') by (rewrite <- Hr; apply nodes_root).
  exists w', t', osrc. split; [done|]. split; [done|].
  split; [|split; [done|split; [|split; [|split]]]].
  - rewrite <- (members_extends _ _ _ _ Hext). unfold members, w'. done.
  - apply (ext_fresh _ _ _ _ Hext).
  - rewrite Hr. unfold w'. simpl. by rewrite lookup_insert_eq.
  - eapply copied_frame; [exact Hcopied|done|].
    intros n Hn. unfold w'. simpl. rewrite lookup_insert_ne; [done|].
    intros <-. destruct t' as [y ys]. simpl in *. subst y.
    apply NoDup_cons in Hnd as [? _]. done.
  - intros k Hk. unfold w'. simpl.
    rewrite lookup_insert_ne by (intros <-; done).
    by apply (ext_frame _ _ _ _ Hext).
Qed.

End Replicate.

(** C4: the script under [scripts/] duplicates the root of the template
    only.  Asked for one instance of a template that has a child, it
    leaves one object in the target, without children; the project
    folder's script, on the same input, leaves the copy of the root and,
    under it, the copy of the child with the child's own transform. *)
Theorem C4_scripts_copy_the_root_only :
  hierarchy (data_objects Boxes.scene_with_child) tree_with_crown ∧
  Scripts.scatter_on_terrain (host := Boxes.centre_host) "tree"
    "Generated_Trees" 1 6 1000 (7 # 10) (12 # 10) (1 # 2) 0
    Boxes.scene_with_child = Return (1, 2) Boxes.child_run_scripts ∧
  members Boxes.child_run_scripts "Generated_Trees" = ["tree0"] ∧
  children_of (data_objects Boxes.child_run_scripts) "tree0" = [] ∧
  Projekt.scatter_on_terrain (host := Boxes.centre_host) "tree"
    "Generated_Trees" 1 6 1000 (7 # 10) (12 # 10) false (1 # 2) 0
    Boxes.scene_with_child = Return (1, 2) Boxes.child_run_projekt ∧
  members Boxes.child_run_projekt "Generated_Trees" = ["tree0"; "crown0"] ∧
  children_of (data_objects Boxes.child_run_projekt) "tree0" = ["crown0"] ∧
  data_objects Boxes.child_run_projekt !! "crown0"
    = Some (with_parent (Some "tree0") Boxes.crown).
Proof.
  split.
  - repeat constructor; try by vm_compute.
    + vm_compute. eauto.
    + vm_compute. eauto.
  - repeat split; vm_compute; reflexivity.
Qed.

Lemma configuration_errors_fail_fast_witness :
  (∃ ot, data_objects Boxes.scene_without_mesh !! terrain_name = Some ot ∧
         type ot ≠ "MESH") ∧
  ∃ msg, msg ≠ "" ∧
    Projekt.scatter_on_terrain (host := Boxes.centre_host) "tree"
      "Generated_Trees" 1 6 1000 (7 # 10) (12 # 10) true (1 # 2) (3 # 2)
      Boxes.scene_without_mesh
    = Raise (RuntimeError msg) Boxes.scene_without_mesh.
Proof.
  assert (H : ∃ ot,
            data_objects Boxes.scene_without_mesh !! terrain_name = Some ot ∧
            type ot ≠ "MESH").
  { exists Boxes.empty_plane. split; [by vm_compute|]. discriminate. }
  split; [exact H|].
  apply (configuration_errors_fail_fast (host := Boxes.centre_host) "tree"
           "Generated_Trees" 1 6 1000 (7 # 10) (12 # 10) true (1 # 2)
           (3 # 2) Boxes.scene_without_mesh).
  right. left. exact H.
Defined.

Lemma child_start_copy_pre :
  copy_pre "Generated_Trees" Boxes.child_start tree_with_crown.
Proof.
  split; [|split; [|split; [|split]]].
  - repeat constructor; try by vm_compute.
    + vm_compute. eauto.
    + vm_compute. eauto.
  - simpl. repeat constructor; rewrite ?elem_of_cons, ?elem_of_nil;
      intros H; repeat destruct H as [H|H]; discriminate || done.
  - intros o p Ho Hp.
    assert (Ht : data_objects Boxes.child_start !! "tree" = Some Boxes.tree)
      by (vm_compute; reflexivity).
    change (root tree_with_crown) with "tree" in Ho.
    rewrite Ht in Ho. injection Ho as <-. discriminate.
  - vm_compute. eauto.
  - apply world_okb_sound. vm_compute. reflexivity.
Qed.

Lemma Projekt_place_replicates_hierarchy_witness :
  copy_pre "Generated_Trees" Boxes.child_start tree_with_crown ∧
  ∃ w' t' o_src,
    data_objects Boxes.child_start !! "tree" = Some o_src ∧
    Projekt.place (host := Boxes.centre_host) "tree" "Generated_Trees"
      (7 # 10) (12 # 10) (0, 0, 0)%Q [] 0 1 Boxes.child_start
      = Return (mkLocals [] 1 1) w' ∧
    members w' "Generated_Trees"
      = members Boxes.child_start "Generated_Trees" ++ nodes t' ∧
    copied (data_objects Boxes.child_start) (data_objects w')
      tree_with_crown t'.
Proof.
  split; [exact child_start_copy_pre|].
  destruct (Projekt_place_replicates_hierarchy (host := Boxes.centre_host)
              "tree" "Generated_Trees" (7 # 10) (12 # 10) (0, 0, 0)%Q [] 0 1
              Boxes.child_start tree_with_crown eq_refl child_start_copy_pre)
    as (w' & t' & o_src & Hsrc & Hplace & Hmem & _ & _ & _ & Hcopied & _).
  - vm_compute. repeat constructor.
  - exists w', t', o_src. repeat split; done.
Defined.
